(** * JSONBible Fixer for FreeShow: the verse-repair pass and the log grouper

    A shallow embedding of [src/fixJsonBible.mjs]: [processVerses] (the
    linear scan that folds empty verses and numbering gaps into the
    preceding kept verse), the grouping loop of [logGroupedErrors], and
    the wrapper detection of [readBibleFile] / [writeBibleFile].

    JavaScript objects are references.  [processVerses] assigns
    [lastVerse.endNumber] on an object that is at the same time an
    element of the input array and of the result array, and
    [logGroupedErrors] assigns [last.end] on objects of its local array
    [grouped].  Both are therefore modelled over an explicit store that
    maps locations to objects; arrays are lists of locations.

    The rest of the script is modelled as well, as far as it computes:
    the main loop over the input files with its counters, its step 2 over
    the books and chapters of a document, the handling of the command-line
    arguments, and the log buffer. *)

From Stdlib Require Import ZArith NArith String Ascii.
From stdpp Require Import gmap list fin_maps sorting.

Local Open Scope Z_scope.

(** ** JavaScript numbers *)

(** A JavaScript number is an IEEE 754 double.  The numbers of a Bible
    document are integers, and they are kept here as the integers they
    are, in [Z]; the doubles among the integers are the fixed points of
    [toDouble], which rounds an integer to the nearest double, a tie
    going to the even significand, as the arithmetic of JavaScript does
    with an exact result.  Up to 2^53 in magnitude every integer is a
    double; from there on only every second, then every fourth, ... *)

(** A natural number rounded to 53 significant bits: the [k] low bits
    beyond the 53rd are cut off, and the rest goes up by one when they
    are above half of [2 ^ k], or are half of it and the rest is odd. *)
Definition roundMantissa (n : Z) : Z :=
  let k := Z.log2 n - 52 in
  if k <=? 0 then n
  else
    let q := n / 2 ^ k in
    let r := n mod 2 ^ k in
    let h := 2 ^ (k - 1) in
    (if (h <? r) || ((r =? h) && Z.odd q) then q + 1 else q) * 2 ^ k.

(** What stands for [Infinity]: whatever rounds to 2^1024 or more is
    beyond the largest double and becomes [Infinity], which further
    additions and subtractions do not change. *)
Definition infinity : Z := 2 ^ 1024.

Definition toDoubleAbs (n : Z) : Z :=
  let m := roundMantissa n in
  if infinity <=? m then infinity else m.

(** The double nearest to the integer [z]. *)
Definition toDouble (z : Z) : Z :=
  if z <? 0 then - toDoubleAbs (- z) else toDoubleAbs z.

(** [a + b] and [a - b]: the exact result, rounded. *)
Definition jsAdd (a b : Z) : Z := toDouble (a + b).
Definition jsSub (a b : Z) : Z := toDouble (a - b).

(** [a < b] and [a === b] on numbers. *)
Definition jsLt (a b : Z) : bool := toDouble a <? toDouble b.
Definition jsEq (a b : Z) : bool := toDouble a =? toDouble b.

(** [Number.MAX_SAFE_INTEGER] and [Number.isSafeInteger]: the integers
    [n] for which [n - 1], [n] and [n + 1] are all doubles. *)
Definition MAX_SAFE_INTEGER : Z := 2 ^ 53 - 1.

Definition safeInteger (n : Z) : Prop :=
  - MAX_SAFE_INTEGER ≤ n ≤ MAX_SAFE_INTEGER.

Arguments toDouble : simpl never.
Arguments jsAdd : simpl never.
Arguments jsSub : simpl never.
Arguments jsLt : simpl never.
Arguments jsEq : simpl never.

(** ** JavaScript strings *)

(** A JavaScript string is a sequence of UTF-16 code units. *)
Abbreviation jsstring := (list N).

(** An ASCII literal as a JavaScript string. *)
Definition js (s : string) : jsstring :=
  N_of_ascii <$> list_ascii_of_string s.

(** The empty string. *)
Definition emptyString : jsstring := [].

(** The code units removed by [String.prototype.trim]: the WhiteSpace and
    LineTerminator productions of ECMAScript (TAB, LF, VT, FF, CR, SP,
    NBSP, the Unicode space separators, LS, PS and the BOM). *)
Definition isWhiteSpace (c : N) : bool :=
  ((9 <=? c) && (c <=? 13) || (c =? 32) || (c =? 160) || (c =? 5760)
   || (8192 <=? c) && (c <=? 8202) || (c =? 8232) || (c =? 8233)
   || (c =? 8239) || (c =? 8287) || (c =? 12288) || (c =? 65279))%N.

Fixpoint trimStart (s : jsstring) : jsstring :=
  match s with
  | c :: s' => if isWhiteSpace c then trimStart s' else s
  | [] => []
  end.

Definition trimEnd (s : jsstring) : jsstring := rev (trimStart (rev s)).

Definition trim (s : jsstring) : jsstring := trimEnd (trimStart s).

(** ** Verses and defect entries *)

Abbreviation loc := positive.

Module Verse.

(** A verse object [{ number, text, endNumber }].  An absent (or null)
    [text] or [endNumber] property is [None].  Verse numbers are the
    integers of the JSON Bible format; what the script computes from
    them goes through [jsAdd], [jsSub] and [jsLt]. *)
Record t := mk { number : Z; text : option jsstring; endNumber : option Z }.

#[global] Instance verse_inhabited : Inhabited t := populate (mk 0 None None).

(** [v.endNumber = x]. *)
Definition setEndNumber (x : Z) (v : t) : t :=
  {| number := number v; text := text v; endNumber := Some x |}.

(** The test of the empty-text block of [processVerses]: [!v.text], or
    [v.text.trim()] is the empty string. *)
Definition isEmpty (v : t) : bool :=
  match text v with
  | None => true
  | Some s => bool_decide (s = []) || bool_decide (trim s = [])
  end.

End Verse.

Inductive kind := missing | empty.

(** [a === b] on the two type tags. *)
Definition kind_eqb (a b : kind) : bool :=
  match a, b with
  | missing, missing | empty, empty => true
  | _, _ => false
  end.

Module Entry.

(** A log entry [{ type, start, end, context }]. *)
Record t := mk { type : kind; start : Z; end_ : Z; context : jsstring }.

#[global] Instance entry_inhabited : Inhabited t := populate (mk empty 0 0 []).

(** [e.end = x]. *)
Definition setEnd (x : Z) (e : t) : t :=
  {| type := type e; start := start e; end_ := x; context := context e |}.

End Entry.

(** ** processVerses *)

(** The store of verse objects. *)
Abbreviation vheap := (gmap loc Verse.t).

(** [l.endNumber = x] on the object at [l]. *)
Definition storeEndNumber (l : loc) (x : Z) (h : vheap) : vheap :=
  <[l := Verse.setEndNumber x (h !!! l)]> h.

(** The variables of [processVerses] while its loop runs: the locals
    [result], [lastVerse], [expectedNumber] and [fixed], the store, and
    the caller's array [verseLog].  The entries pushed on [verseLog] are
    object literals that [processVerses] never assigns to afterwards, so
    the array is kept as a list of entry values here.  [stores] is a
    history variable: the assignments [lastVerse.endNumber = x] performed
    so far, oldest first.  The program never reads it. *)
Record state := State {
  result : list loc;
  lastVerse : option loc;
  expectedNumber : option Z;
  fixed : bool;
  heap : vheap;
  verseLog : list Entry.t;
  stores : list (loc * Z)
}.

Definition init (h : vheap) (log : list Entry.t) : state :=
  {| result := []; lastVerse := None; expectedNumber := None; fixed := false;
     heap := h; verseLog := log; stores := [] |}.

(** [fixed = true; lastVerse.endNumber = x; verseLog.push(e)]: the common
    shape of the two repairs. *)
Definition mergeInto (l : loc) (x : Z) (e : Entry.t) (st : state) : state :=
  {| result := result st; lastVerse := lastVerse st;
     expectedNumber := expectedNumber st; fixed := true;
     heap := storeEndNumber l x (heap st);
     verseLog := verseLog st ++ [e];
     stores := stores st ++ [(l, x)] |}.

(** [if (expectedNumber === null) expectedNumber = v.number;] *)
Definition initExpected (v : loc) (st : state) : state :=
  match expectedNumber st with
  | Some _ => st
  | None =>
      {| result := result st; lastVerse := lastVerse st;
         expectedNumber := Some (Verse.number (heap st !!! v));
         fixed := fixed st; heap := heap st; verseLog := verseLog st;
         stores := stores st |}
  end.

(** The gap block: [if (v.number > expectedNumber && lastVerse) {...}].
    A null [expectedNumber] would compare as 0; [initExpected] has run
    before, so that case does not arise inside the loop. *)
Definition gapCheck (ctx : jsstring) (v : loc) (st : state) : state :=
  let n := Verse.number (heap st !!! v) in
  let e := default 0 (expectedNumber st) in
  match lastVerse st with
  | Some l =>
      if jsLt e n
      then mergeInto l (jsSub n 1) (Entry.mk missing e (jsSub n 1) ctx) st
      else st
  | None => st
  end.

(** The empty-text block with its [else] branch. *)
Definition emptyCheck (ctx : jsstring) (v : loc) (st : state) : state :=
  if Verse.isEmpty (heap st !!! v) then
    match lastVerse st with
    | Some l =>
        let n := Verse.number (heap st !!! v) in
        mergeInto l n (Entry.mk empty n n ctx) st
    | None => st
    end
  else
    {| result := result st ++ [v]; lastVerse := Some v;
       expectedNumber := expectedNumber st; fixed := fixed st;
       heap := heap st; verseLog := verseLog st; stores := stores st |}.

(** [expectedNumber = v.number + 1;] *)
Definition advance (v : loc) (st : state) : state :=
  {| result := result st; lastVerse := lastVerse st;
     expectedNumber := Some (jsAdd (Verse.number (heap st !!! v)) 1);
     fixed := fixed st; heap := heap st; verseLog := verseLog st;
     stores := stores st |}.

(** One iteration of [for (const v of verses)]. *)
Definition body (ctx : jsstring) (st : state) (v : loc) : state :=
  advance v (emptyCheck ctx v (gapCheck ctx v (initExpected v st))).

(** The loop from an arbitrary state. *)
Definition run (ctx : jsstring) (st : state) (verses : list loc) : state :=
  fold_left (body ctx) verses st.

(** [processVerses(verses, context, verseLog)] called in store [h].  The
    returned object [{ verses: result, fixed }] is read off the final
    state with [result] and [fixed]; [heap] and [verseLog] are the store
    and the caller's log array after the call. *)
Definition processVerses (h : vheap) (verses : list loc) (ctx : jsstring)
    (log : list Entry.t) : state :=
  run ctx (init h log) verses.

(** The objects behind an array of references. *)
Definition deref (h : vheap) (ls : list loc) : list Verse.t :=
  (λ l, h !!! l) <$> ls.

(** A store holding the verses [vs] at locations 1, 2, ... and the array
    of references to them, as [JSON.parse] builds a chapter's [verses]. *)
Definition allocVerses (vs : list Verse.t) : vheap * list loc :=
  let ls := Pos.of_nat <$> seq 1 (length vs) in
  (list_to_map (zip ls vs), ls).

(** ** logGroupedErrors: the grouping loop *)

(** The store of log-entry objects. *)
Abbreviation eheap := (gmap loc Entry.t).

(** The condition [last && last.type === entry.type && last.context ===
    entry.context && last.end + 1 === entry.start], for a [last] that
    exists. *)
Definition continues (g e : Entry.t) : bool :=
  kind_eqb (Entry.type g) (Entry.type e)
  && bool_decide (Entry.context g = Entry.context e)
  && jsEq (jsAdd (Entry.end_ g) 1) (Entry.start e).

(** One iteration of [for (const entry of verseLog)] on the store and the
    local array [grouped].  [grouped[grouped.length - 1]] is [last
    grouped]; [{ ...entry }] is a new object, at a location the store
    does not use yet, with the properties of [entry]. *)
Definition groupStep (acc : eheap * list loc) (entry : loc) : eheap * list loc :=
  let h := acc.1 in
  let grouped := acc.2 in
  let push := let l := fresh (dom h) in (<[l := h !!! entry]> h, grouped ++ [l]) in
  match last grouped with
  | Some lst =>
      if continues (h !!! lst) (h !!! entry)
      then (<[lst := Entry.setEnd (Entry.end_ (h !!! entry)) (h !!! lst)]> h, grouped)
      else push
  | None => push
  end.

(** The first loop of [logGroupedErrors(verseLog)] called in store [h]:
    the store afterwards and the array [grouped].  The second loop only
    reads [grouped] to print one line per element. *)
Definition logGroupedErrors (h : eheap) (verseLog : list loc) : eheap * list loc :=
  fold_left groupStep verseLog (h, []).

(** The entry objects behind an array of references. *)
Definition derefE (h : eheap) (ls : list loc) : list Entry.t :=
  (λ l, h !!! l) <$> ls.

(** A store holding the entries [es] at locations 1, 2, ... and the array
    of references to them: the [fileLog] that [processVerses] has filled. *)
Definition allocEntries (es : list Entry.t) : eheap * list loc :=
  let ls := Pos.of_nat <$> seq 1 (length es) in
  (list_to_map (zip ls es), ls).

(** The grouping loop on values: what [grouped] holds, entry by entry,
    when the aliasing is left out.  [logGroupedErrors_view] below relates it to
    [logGroupedErrors]. *)
Definition groupValues (grouped : list Entry.t) (e : Entry.t) : list Entry.t :=
  match last grouped with
  | Some g =>
      if continues g e
      then removelast grouped ++ [Entry.setEnd (Entry.end_ e) g]
      else grouped ++ [e]
  | None => grouped ++ [e]
  end.

(** ** readBibleFile and writeBibleFile *)

(** A parsed JSON value.  The code modelled here inspects the shape of a
    value only, never the payload of a number. *)
#[warnings="-register-all"] Inductive value :=
  | JNull
  | JBool (b : bool)
  | JNum (n : Z)
  | JStr (s : jsstring)
  | JArr (xs : list value)
  | JObj (props : list (jsstring * value)).

Definition isArray (x : value) : bool :=
  match x with JArr _ => true | _ => false end.

(** [typeof x === "object"]: objects, arrays and null. *)
Definition typeofObject (x : value) : bool :=
  match x with JNull | JArr _ | JObj _ => true | _ => false end.

Definition typeofString (x : value) : bool :=
  match x with JStr _ => true | _ => false end.

Definition isNull (x : value) : bool :=
  match x with JNull => true | _ => false end.

Inductive wrapperType := fsb | json.

Module Wrapper.

(** The object [{ type, id, data }] that [readBibleFile] returns. *)
Record t := mk { type : wrapperType; id : value; data : value }.

End Wrapper.

Inductive readError := InvalidJSONSyntax | UnknownStructure.

(** What one iteration of the main loop does with a file.  [Thrown]: an
    exception leaves the loop; nothing catches it, and the script ends
    there. *)
Inductive outcome :=
  | Skipped (e : readError)
  | Unchanged
  | NeedsFixing
  | Written (output : jsstring)
  | Thrown.

Section Host.

(** [JSON.parse], [None] when it throws, and [JSON.stringify]. *)
Variable parse : jsstring → option value.
Variable stringify : value → jsstring.

(** Step 2 of the main loop: the loop nest over [bible.books] and
    [book.chapters] that calls [processVerses] and replaces
    [chapter.verses].  It reaches the document only through [bible],
    the reference held in [bibleWrapper.data]; its effect on that
    object and the flag [bibleWasModified] are its result here.  Step 2
    is outside the [try] of step 1: on an accepted document of another
    shape (a [books] that is a number, say) it throws a TypeError, and
    the result is [None]. *)
Variable step2 : value → option (value * bool).

Variable DRY_RUN : bool.

(** The detection in [readBibleFile], on the parsed value [raw]. *)
Definition isFsbStructure (raw : value) : bool :=
  match raw with
  | JArr [x0; x1] => typeofString x0 && typeofObject x1 && negb (isNull x1)
  | _ => false
  end.

Definition readBibleFile (content : jsstring) : readError + Wrapper.t :=
  match parse content with
  | None => inl InvalidJSONSyntax
  | Some raw =>
      if isFsbStructure raw then
        match raw with
        | JArr [x0; x1] => inr (Wrapper.mk fsb x0 x1)
        | _ => inl UnknownStructure
        end
      else if typeofObject raw && negb (isNull raw) && negb (isArray raw)
      then inr (Wrapper.mk json JNull raw)
      else inl UnknownStructure
  end.

(** The value that [writeBibleFile] serialises. *)
Definition outputData (w : Wrapper.t) : value :=
  match Wrapper.type w with
  | fsb => JArr [Wrapper.id w; Wrapper.data w]
  | json => Wrapper.data w
  end.

(** [writeBibleFile]: the text written to the output file. *)
Definition writeBibleFile (w : Wrapper.t) : jsstring :=
  stringify (outputData w).

(** One iteration of the main loop over [inputFiles], from the content
    of the file to what is written.  Only the exception of
    [readBibleFile] is caught. *)
Definition loopBody (content : jsstring) : outcome :=
  match readBibleFile content with
  | inl e => Skipped e
  | inr w =>
      match step2 (Wrapper.data w) with
      | None => Thrown
      | Some r =>
          if r.2 then
            if DRY_RUN then NeedsFixing
            else Written (writeBibleFile
                   (Wrapper.mk (Wrapper.type w) (Wrapper.id w) r.1))
          else Unchanged
      end
  end.

End Host.

(** The iteration for a step 2 that returns: [fixBible] gives the
    document and the flag that it leaves. *)
Definition processFile (parse : jsstring → option value) (stringify : value → jsstring)
    (fixBible : value → value * bool) (DRY_RUN : bool) (content : jsstring) : outcome :=
  loopBody parse stringify (λ bible, Some (fixBible bible)) DRY_RUN content.

(** ** The scenarios of the specification *)

Definition ctxA : jsstring := js "Genesis 1".

Definition scenarioA : vheap * list loc := allocVerses
  [Verse.mk 1 (Some (js "In the beginning")) None;
   Verse.mk 2 (Some emptyString) None;
   Verse.mk 3 (Some (js "And the earth")) None].

Definition scenarioB : vheap * list loc := allocVerses
  [Verse.mk 1 (Some (js "A")) None;
   Verse.mk 2 (Some (js "B")) None;
   Verse.mk 5 (Some (js "C")) None].

Definition gapThenEmpty : vheap * list loc := allocVerses
  [Verse.mk 1 (Some (js "A")) None;
   Verse.mk 4 (Some (js "  ")) None].

Definition leadingEmpty : vheap * list loc := allocVerses
  [Verse.mk 1 (Some emptyString) None;
   Verse.mk 2 (Some (js "A")) None].

Definition leadingGap : vheap * list loc := allocVerses
  [Verse.mk 3 (Some (js "C")) None;
   Verse.mk 4 (Some (js "D")) None;
   Verse.mk 6 (Some (js "F")) None].




Definition largeGap : vheap * list loc := allocVerses
  [Verse.mk (2 ^ 53) (Some (js "A")) None;
   Verse.mk (2 ^ 53 + 2) (Some (js "B")) None].

Definition largeGapEmpty : vheap * list loc := allocVerses
  [Verse.mk (2 ^ 53) (Some (js "A")) None;
   Verse.mk (2 ^ 53 + 2) (Some emptyString) None].

Definition largeWithText : vheap * list loc := allocVerses
  [Verse.mk (2 ^ 53 + 2) (Some (js "A")) None;
   Verse.mk (2 ^ 53 + 4) (Some (js "B")) None].

Definition largeEntries : eheap * list loc := allocEntries
  [Entry.mk empty (2 ^ 53) (2 ^ 53) ctxA; Entry.mk empty (2 ^ 53) (2 ^ 53) ctxA].

Definition scenarioC : eheap * list loc := allocEntries
  [Entry.mk empty 5 5 ctxA; Entry.mk empty 6 6 ctxA; Entry.mk missing 8 9 ctxA].

Definition fsbDocument : value :=
  JArr [JStr (js "kjv"); JObj [(js "books", JArr [])]].

(** ** Derived notions used in the proofs *)

(** The repairs of one iteration: for each, the location assigned, the
    end number assigned and the entry logged, in program order. *)
Definition repairs (ctx : jsstring) (st : state) (v : loc) : list (loc * Z * Entry.t) :=
  let n := Verse.number (heap st !!! v) in
  let e := default n (expectedNumber st) in
  match lastVerse st with
  | Some l =>
      (if jsLt e n then [(l, jsSub n 1, Entry.mk missing e (jsSub n 1) ctx)] else [])
      ++ (if Verse.isEmpty (heap st !!! v) then [(l, n, Entry.mk empty n n ctx)] else [])
  | None => []
  end.

(** Every kept reference points to a verse with text. *)
Definition keptHaveText (st : state) : Prop :=
  Forall (λ l, Verse.isEmpty (heap st !!! l) = false) (result st).

(** The whole loop on values. *)
Definition groupAll (es : list Entry.t) : list Entry.t :=
  fold_left groupValues es [].

(** While the loop of [logGroupedErrors] runs from store [h0]: the
    objects of [h0] are as they were, and the elements of [grouped] are
    distinct objects that were allocated since. *)
Definition groupInv (h0 h : eheap) (grouped : list loc) : Prop :=
  (∀ l, is_Some (h0 !! l) → h !! l = h0 !! l)
  ∧ Forall (λ l, is_Some (h !! l) ∧ h0 !! l = None) grouped
  ∧ NoDup grouped.

(** No two neighbours of a list of entries would be merged. *)
Definition settled (gs : list Entry.t) : Prop :=
  ∀ l1 a b l2, gs = l1 ++ a :: b :: l2 → continues a b = false.

(** All the repairs of a run, iteration after iteration. *)
Fixpoint allRepairs (ctx : jsstring) (st : state) (verses : list loc)
    : list (loc * Z * Entry.t) :=
  match verses with
  | [] => []
  | v :: vs => repairs ctx st v ++ allRepairs ctx (body ctx st v) vs
  end.

(** Assignments [l.endNumber = x] applied to a store, first to last. *)
Definition replay (ws : list (loc * Z)) (h : vheap) : vheap :=
  fold_left (λ h' w, storeEndNumber w.1 w.2 h') ws h.









(** ** The main loop over the input files *)

(** [f.endsWith(s)]. *)
Definition endsWith (s f : jsstring) : bool := bool_decide (s `suffix_of` f).

(** The filter on the listing of the input folder. *)
Definition isInputFile (f : jsstring) : bool :=
  endsWith (js ".json") f || endsWith (js ".fsb") f.

(** The counters of the main loop and the files written so far, as pairs
    of the output name and the text. *)
Record summary := Summary {
  fixedCount : nat;
  invalidCount : nat;
  written : list (jsstring * jsstring)
}.

Section Batch.

Variable parse : jsstring → option value.
Variable stringify : value → jsstring.
Variable step2 : value → option (value * bool).
Variable DRY_RUN : bool.

(** One iteration of [for (const file of inputFiles)] on a file given
    with its content: the counters and the files written after it, or
    [None] when it throws. *)
Definition fileStep (acc : summary) (file : jsstring * jsstring) : option summary :=
  match loopBody parse stringify step2 DRY_RUN file.2 with
  | Skipped _ =>
      Some {| fixedCount := fixedCount acc; invalidCount := S (invalidCount acc);
              written := written acc |}
  | Unchanged => Some acc
  | NeedsFixing =>
      Some {| fixedCount := S (fixedCount acc); invalidCount := invalidCount acc;
              written := written acc |}
  | Written output =>
      Some {| fixedCount := S (fixedCount acc); invalidCount := invalidCount acc;
              written := written acc ++ [(js "fixed_" ++ file.1, output)] |}
  | Thrown => None
  end.

(** [for (const file of inputFiles)]: the counters and the files written
    when the loop is left, and whether it was left at its end ([true]) or
    by an exception ([false]); in the second case the script ends without
    its summary and without [flushLogs]. *)
Fixpoint forFiles (files : list (jsstring * jsstring)) (acc : summary) : summary * bool :=
  match files with
  | [] => (acc, true)
  | file :: rest =>
      match fileStep acc file with
      | Some acc' => forFiles rest acc'
      | None => (acc, false)
      end
  end.

(** The main loop on the listing of the input folder. *)
Definition mainLoop (listing : list (jsstring * jsstring)) : summary * bool :=
  forFiles (filter (λ f, isInputFile f.1 = true) listing)
    {| fixedCount := 0; invalidCount := 0; written := [] |}.

End Batch.

(** ** Step 2 of the main loop on a typed document *)

Module Doc.

(** The parts of a document that step 2 reads.  A chapter holds its
    verses as an array of references; a missing [verses], [chapters] or
    [books] property is [None]. *)
Record chapter := mkChapter { number : Z; verses : option (list loc) }.
Record book := mkBook { name : jsstring; chapters : option (list chapter) }.
Record bible := mkBible { books : option (list book) }.

End Doc.

(** What step 2 has done so far: the store, [fileLog] and
    [bibleWasModified]. *)
Record progress := Progress {
  store : vheap;
  fileLog : list Entry.t;
  bibleWasModified : bool
}.

(** A [for ... of] loop that may replace each element and threads a
    state. *)
Fixpoint forEach {A S} (f : S → A → A * S) (xs : list A) (s : S) : list A * S :=
  match xs with
  | [] => ([], s)
  | x :: xs' =>
      let r := f s x in
      let rs := forEach f xs' r.2 in
      (r.1 :: rs.1, rs.2)
  end.

Section Process.

(** The conversion of [chapter.number] in the template literal. *)
Variable numberToString : Z → jsstring.

(** [`${book.name} ${chapter.number}`]. *)
Definition chapterContext (b : Doc.book) (c : Doc.chapter) : jsstring :=
  Doc.name b ++ js " " ++ numberToString (Doc.number c).

(** The body of the inner loop. *)
Definition processChapter (b : Doc.book) (acc : progress) (c : Doc.chapter)
    : Doc.chapter * progress :=
  let st := processVerses (store acc) (default [] (Doc.verses c))
              (chapterContext b c) (fileLog acc) in
  if fixed st then
    (Doc.mkChapter (Doc.number c) (Some (result st)),
     {| store := heap st; fileLog := verseLog st; bibleWasModified := true |})
  else
    (c, {| store := heap st; fileLog := verseLog st;
           bibleWasModified := bibleWasModified acc |}).

(** [for (const chapter of book.chapters || [])]. *)
Definition processBook (acc : progress) (b : Doc.book) : Doc.book * progress :=
  match Doc.chapters b with
  | Some cs =>
      let r := forEach (processChapter b) cs acc in
      (Doc.mkBook (Doc.name b) (Some r.1), r.2)
  | None => (b, acc)
  end.

(** [for (const book of bible.books || [])], from [fileLog = []] and
    [bibleWasModified = false]. *)
Definition processBible (h : vheap) (bible : Doc.bible) : Doc.bible * progress :=
  let acc := {| store := h; fileLog := []; bibleWasModified := false |} in
  match Doc.books bible with
  | Some bs =>
      let r := forEach processBook bs acc in
      (Doc.mkBible (Some r.1), r.2)
  | None => (bible, acc)
  end.

End Process.

(** ** Arguments and the log buffer *)

(** [arg.startsWith("-")]. *)
Definition startsWithDash (arg : jsstring) : bool :=
  match arg with
  | c :: _ => (c =? 45)%N
  | [] => false
  end.

Definition ALLOWED_FLAGS : list jsstring :=
  [js "--dry-run"; js "--log"; js "--help"; js "-h"].

(** [args.includes(x)]. *)
Definition includes (args : list jsstring) (x : jsstring) : bool :=
  bool_decide (x ∈ args).

Record flags := Flags { FLAG_DRY_RUN : bool; FLAG_WRITE_LOG : bool; FLAG_HELP : bool }.

Definition FLAGS (args : list jsstring) : flags :=
  {| FLAG_DRY_RUN := includes args (js "--dry-run");
     FLAG_WRITE_LOG := includes args (js "--log");
     FLAG_HELP := includes args (js "--help") || includes args (js "-h") |}.

(** How the script starts: it exits with status 1 on the first unknown
    argument that looks like a flag, else with status 0 when help is
    asked for, else it goes on. *)
Inductive startup :=
  | ExitUnknown (arg : jsstring)
  | ExitHelp
  | Proceed (f : flags).

Definition firstUnknown (args : list jsstring) : option jsstring :=
  head (filter (λ arg, startsWithDash arg && negb (includes ALLOWED_FLAGS arg) = true) args).

Definition start (args : list jsstring) : startup :=
  match firstUnknown args with
  | Some arg => ExitUnknown arg
  | None => if FLAG_HELP (FLAGS args) then ExitHelp else Proceed (FLAGS args)
  end.

(** The argument of [process.exit], when the script exits at once. *)
Definition exitStatus (s : startup) : option Z :=
  match s with
  | ExitUnknown _ => Some 1
  | ExitHelp => Some 0
  | Proceed _ => None
  end.

(** The line feed. *)
Definition newline : jsstring := [10%N].

(** [logLines.join(sep)]. *)
Fixpoint join (sep : jsstring) (lines : list jsstring) : jsstring :=
  match lines with
  | [] => []
  | [l] => l
  | l :: ls => l ++ sep ++ join sep ls
  end.

(** The console and the buffer [logLines]. *)
Record logs := Logs { console : list jsstring; logLines : list jsstring }.

Section Logging.

Variable WRITE_LOG : bool.

(** [writeLog(line)]. *)
Definition writeLog (line : jsstring) (st : logs) : logs :=
  if WRITE_LOG
  then {| console := console st; logLines := logLines st ++ [line] |}
  else st.

(** [logMessage(msg, level)]: the three levels all print [msg]. *)
Definition logMessage (msg : jsstring) (st : logs) : logs :=
  writeLog msg {| console := console st ++ [msg]; logLines := logLines st |}.

(** [flushLogs()]: the content of the log file, when one is written. *)
Definition flushLogs (st : logs) : option jsstring :=
  if WRITE_LOG && negb (bool_decide (logLines st = []))
  then Some (join newline (logLines st) ++ newline)
  else None.

End Logging.



(** A chapter after step 2, against the chapter before: the same number,
    and the same verses or, of these, the ones that have text in store
    [h]. *)
Definition chapterRepaired (h : vheap) (c c' : Doc.chapter) : Prop :=
  Doc.number c' = Doc.number c
  ∧ (Doc.verses c' = Doc.verses c
     ∨ Doc.verses c'
       = Some (filter (λ l, Verse.isEmpty (h !!! l) = false) (default [] (Doc.verses c)))).

(** A book after step 2: the same name and as many chapters, each one
    repaired. *)
Definition bookRepaired (h : vheap) (b b' : Doc.book) : Prop :=
  Doc.name b' = Doc.name b
  ∧ option_Forall2 (Forall2 (chapterRepaired h)) (Doc.chapters b) (Doc.chapters b').


(** Two states of step 2 with the same store and the same log. *)
Definition sameStoreAndLog (s s' : progress) : Prop :=
  store s' = store s ∧ fileLog s' = fileLog s.

(** The texts of a store are those of store [h]. *)
Definition sameTexts (h : vheap) (acc : progress) : Prop :=
  ∀ l, Verse.text (store acc !!! l) = Verse.text (h !!! l).

Definition docLeadingEmpty : Doc.bible :=
  Doc.mkBible (Some [Doc.mkBook (js "Genesis")
                       (Some [Doc.mkChapter 1 (Some leadingEmpty.2)])]).

(** A run of [logMessage] calls from an empty console and buffer. *)
Definition logAll (WRITE_LOG : bool) (msgs : list jsstring) : logs :=
  fold_left (λ st msg, logMessage WRITE_LOG msg st) msgs
    {| console := []; logLines := [] |}.


Definition threeEmpties : eheap * list loc := allocEntries
  [Entry.mk empty 5 5 ctxA; Entry.mk empty 6 6 ctxA; Entry.mk empty 7 7 ctxA].

(** The state of the loop without the log. *)
Definition core (st : state)
    : list loc * option loc * option Z * bool * vheap * list (loc * Z) :=
  (result st, lastVerse st, expectedNumber st, fixed st, heap st, stores st).

(** An entry under another context. *)
Definition withContext (ctx : jsstring) (e : Entry.t) : Entry.t :=
  {| Entry.type := Entry.type e; Entry.start := Entry.start e;
     Entry.end_ := Entry.end_ e; Entry.context := ctx |}.






(** ** The rounding of numbers *)

(** The parts of a number of more than 53 bits. *)
Lemma large_parts n :
  53 ≤ Z.log2 n →
  let k := Z.log2 n - 52 in
  let q := n / 2 ^ k in
  let r := n mod 2 ^ k in
  0 < 2 ^ k ∧ n = q * 2 ^ k + r ∧ 0 ≤ r < 2 ^ k
  ∧ 2 ^ 52 ≤ q < 2 ^ 53 ∧ 2 ^ Z.log2 n = 2 ^ 52 * 2 ^ k
  ∧ 2 ^ (Z.log2 n + 1) = 2 ^ 53 * 2 ^ k.
Proof.
  intros HL k q r.
  assert (Hk : 0 < k) by (unfold k; lia).
  assert (Hn : 0 < n).
  { destruct (Z.lt_trichotomy n 0) as [?|[->|?]]; [|simpl in HL; lia|done].
    rewrite Z.log2_nonpos in HL by lia. lia. }
  assert (Hp : 0 < 2 ^ k) by (apply Z.pow_pos_nonneg; lia).
  destruct (Z.log2_spec n Hn) as [Hlo Hhi].
  assert (HL1 : 2 ^ Z.log2 n = 2 ^ 52 * 2 ^ k).
  { rewrite <- Z.pow_add_r by lia. f_equal. unfold k. lia. }
  assert (HL2 : 2 ^ (Z.log2 n + 1) = 2 ^ 53 * 2 ^ k).
  { rewrite <- Z.pow_add_r by lia. f_equal. unfold k. lia. }
  replace (Z.succ (Z.log2 n)) with (Z.log2 n + 1) in Hhi by lia.
  assert (Hdm : n = q * 2 ^ k + r).
  { unfold q, r. rewrite Z.mul_comm. apply Z.div_mod. lia. }
  assert (Hr : 0 ≤ r < 2 ^ k) by (apply Z.mod_pos_bound; lia).
  repeat split; try lia.
  - unfold q. apply Z.div_le_lower_bound; lia.
  - unfold q. apply Z.div_lt_upper_bound; lia.
Qed.

Lemma roundMantissa_small n : Z.log2 n ≤ 52 → roundMantissa n = n.
Proof. intros H. unfold roundMantissa. destruct (Z.leb_spec (Z.log2 n - 52) 0); [done|lia]. Qed.

Lemma roundMantissa_large n :
  53 ≤ Z.log2 n →
  let k := Z.log2 n - 52 in
  let q := n / 2 ^ k in
  let r := n mod 2 ^ k in
  roundMantissa n =
    (if (2 ^ (k - 1) <? r) || ((r =? 2 ^ (k - 1)) && Z.odd q) then q + 1 else q) * 2 ^ k.
Proof. intros H. unfold roundMantissa. destruct (Z.leb_spec (Z.log2 n - 52) 0); [lia|done]. Qed.

Lemma roundMantissa_bounds n :
  53 ≤ Z.log2 n → 2 ^ Z.log2 n ≤ roundMantissa n ≤ 2 ^ (Z.log2 n + 1).
Proof.
  intros H. rewrite roundMantissa_large by done.
  destruct (large_parts n H) as (Hp & Hdm & Hr & Hq & H1 & H2).
  rewrite H1, H2.
  destruct (_ || _); nia.
Qed.

Lemma roundMantissa_mono a b : 0 ≤ a ≤ b → roundMantissa a ≤ roundMantissa b.
Proof.
  intros Hab.
  destruct (Z.le_gt_cases (Z.log2 b) 52) as [Hb|Hb].
  { assert (Z.log2 a ≤ Z.log2 b) by (apply Z.log2_le_mono; lia).
    rewrite !roundMantissa_small by lia. lia. }
  assert (HLb : 53 ≤ Z.log2 b) by lia.
  pose proof (roundMantissa_bounds b HLb) as Hbb.
  assert (HL : Z.log2 a ≤ Z.log2 b) by (apply Z.log2_le_mono; lia).
  destruct (Z.le_gt_cases (Z.log2 a) 52) as [Ha|Ha].
  { rewrite (roundMantissa_small a) by done.
    assert (a < 2 ^ 53).
    { destruct (decide (a = 0)) as [->|]; [done|].
      apply Z.log2_lt_pow2; lia. }
    assert (2 ^ 53 ≤ 2 ^ Z.log2 b) by (apply Z.pow_le_mono_r; lia).
    lia. }
  assert (HLa : 53 ≤ Z.log2 a) by lia.
  pose proof (roundMantissa_bounds a HLa) as Hba.
  destruct (decide (Z.log2 a = Z.log2 b)) as [Heq|Hne].
  - rewrite !roundMantissa_large by done.
    destruct (large_parts a HLa) as (Hp & Hdm & Hr & Hq & _ & _).
    destruct (large_parts b HLb) as (_ & Hdm' & Hr' & Hq' & _ & _).
    rewrite Heq in *.
    set (k := Z.log2 b - 52) in *.
    set (qa := a / 2 ^ k) in *. set (qb := b / 2 ^ k) in *.
    set (ra := a mod 2 ^ k) in *. set (rb := b mod 2 ^ k) in *.
    set (h := 2 ^ (k - 1)).
    assert (qa ≤ qb) by (apply Z.div_le_mono; lia).
    destruct (decide (qa = qb)) as [Hqq|Hqq].
    + assert (ra ≤ rb) by (rewrite Hqq in Hdm; lia).
      rewrite Hqq.
      destruct (Z.ltb_spec h ra), (Z.ltb_spec h rb), (Z.eqb_spec ra h),
        (Z.eqb_spec rb h), (Z.odd qb); simpl; nia.
    + assert (qa + 1 ≤ qb) by lia.
      destruct (_ || _), (_ || _); nia.
  - assert (2 ^ (Z.log2 a + 1) ≤ 2 ^ Z.log2 b) by (apply Z.pow_le_mono_r; lia).
    lia.
Qed.

Lemma roundMantissa_idemp n : roundMantissa (roundMantissa n) = roundMantissa n.
Proof.
  destruct (Z.le_gt_cases (Z.log2 n) 52) as [Hn|Hn].
  { rewrite (roundMantissa_small n) by done. by apply roundMantissa_small. }
  assert (HL : 53 ≤ Z.log2 n) by lia.
  destruct (large_parts n HL) as (Hp & Hdm & Hr & Hq & H1 & H2).
  rewrite (roundMantissa_large n) by done.
  set (k := Z.log2 n - 52) in *.
  set (q := n / 2 ^ k) in *. set (r := n mod 2 ^ k) in *.
  match goal with |- context [if ?c then _ else _] =>
    set (m := if c then q + 1 else q) end.
  assert (Hm : 2 ^ 52 ≤ m ≤ 2 ^ 53) by (unfold m; destruct (_ || _); lia).
  assert (Hk : 0 < k) by (unfold k; lia).
  assert (Hh : 0 < 2 ^ (k - 1)) by (apply Z.pow_pos_nonneg; lia).
  destruct (decide (m = 2 ^ 53)) as [Hm53|Hm53].
  - assert (Hres : m * 2 ^ k = 2 ^ (Z.log2 n + 1)) by (rewrite Hm53, H2; done).
    rewrite Hres.
    assert (HLr : Z.log2 (2 ^ (Z.log2 n + 1)) = Z.log2 n + 1)
      by (apply Z.log2_pow2; lia).
    rewrite roundMantissa_large by lia.
    rewrite HLr.
    replace (Z.log2 n + 1 - 52) with (k + 1) by (unfold k; lia).
    assert (Hsplit : 2 ^ (Z.log2 n + 1) = 2 ^ 52 * 2 ^ (k + 1)).
    { rewrite <- Z.pow_add_r by lia. f_equal. unfold k. lia. }
    assert (Hp' : 0 < 2 ^ (k + 1)) by (apply Z.pow_pos_nonneg; lia).
    rewrite Hsplit, Z.div_mul, Z.mod_mul by lia.
    replace (k + 1 - 1) with k by lia.
    destruct (Z.ltb_spec (2 ^ k) 0), (Z.eqb_spec 0 (2 ^ k)); simpl; lia.
  - assert (HLr : Z.log2 (m * 2 ^ k) = Z.log2 n).
    { apply Z.log2_unique; [lia|].
      replace (Z.succ (Z.log2 n)) with (Z.log2 n + 1) by lia.
      rewrite H1, H2. nia. }
    rewrite roundMantissa_large by lia.
    rewrite HLr. fold k.
    rewrite Z.div_mul, Z.mod_mul by lia.
    destruct (Z.ltb_spec (2 ^ (k - 1)) 0), (Z.eqb_spec 0 (2 ^ (k - 1))); simpl; lia.
Qed.

Lemma roundMantissa_nonneg n : 0 ≤ n → 0 ≤ roundMantissa n.
Proof.
  intros H. pose proof (roundMantissa_mono 0 n). 
  rewrite (roundMantissa_small 0) in H0 by done. lia.
Qed.

Lemma infinity_large : 2 ^ 53 < infinity.
Proof. by vm_compute. Qed.

Lemma roundMantissa_infinity : roundMantissa infinity = infinity.
Proof. by vm_compute. Qed.

Lemma roundMantissa_exact n : 0 ≤ n ≤ 2 ^ 53 → roundMantissa n = n.
Proof.
  intros H. destruct (decide (n = 2 ^ 53)) as [->|]; [by vm_compute|].
  apply roundMantissa_small.
  destruct (decide (n = 0)) as [->|]; [done|].
  assert (Z.log2 n < 53) by (apply Z.log2_lt_pow2; lia). lia.
Qed.

Lemma toDoubleAbs_mono a b : 0 ≤ a ≤ b → toDoubleAbs a ≤ toDoubleAbs b.
Proof.
  intros H. pose proof (roundMantissa_mono a b H). unfold toDoubleAbs.
  destruct (Z.leb_spec infinity (roundMantissa a)),
    (Z.leb_spec infinity (roundMantissa b)); lia.
Qed.

Lemma toDoubleAbs_idemp n : toDoubleAbs (toDoubleAbs n) = toDoubleAbs n.
Proof.
  unfold toDoubleAbs at 2 3.
  destruct (Z.leb_spec infinity (roundMantissa n)) as [H|H].
  - unfold toDoubleAbs. rewrite roundMantissa_infinity.
    by rewrite (proj2 (Z.leb_le _ _) (Z.le_refl _)).
  - unfold toDoubleAbs. rewrite roundMantissa_idemp.
    by rewrite (proj2 (Z.leb_gt _ _) H).
Qed.

Lemma toDoubleAbs_exact n : 0 ≤ n ≤ 2 ^ 53 → toDoubleAbs n = n.
Proof.
  intros H. unfold toDoubleAbs. rewrite roundMantissa_exact by done.
  pose proof infinity_large. destruct (Z.leb_spec infinity n); lia.
Qed.

Lemma toDoubleAbs_pos n : 0 < n → 0 < toDoubleAbs n.
Proof.
  intros H. pose proof (toDoubleAbs_mono 1 n).
  rewrite (toDoubleAbs_exact 1) in H0 by done. lia.
Qed.

Lemma toDouble_exact z : - 2 ^ 53 ≤ z ≤ 2 ^ 53 → toDouble z = z.
Proof.
  intros H. unfold toDouble. destruct (Z.ltb_spec z 0).
  - rewrite toDoubleAbs_exact by lia. lia.
  - by rewrite toDoubleAbs_exact by lia.
Qed.

Lemma toDouble_mono a b : a ≤ b → toDouble a ≤ toDouble b.
Proof.
  intros H. unfold toDouble.
  destruct (Z.ltb_spec a 0), (Z.ltb_spec b 0); try lia.
  - pose proof (toDoubleAbs_mono (- b) (- a)). lia.
  - pose proof (toDoubleAbs_pos (- a)). pose proof (toDoubleAbs_mono 0 b).
    rewrite (toDoubleAbs_exact 0) in * by done. lia.
  - by apply toDoubleAbs_mono.
Qed.

Lemma toDouble_idemp z : toDouble (toDouble z) = toDouble z.
Proof.
  unfold toDouble at 2 3. destruct (Z.ltb_spec z 0).
  - pose proof (toDoubleAbs_pos (- z)). unfold toDouble.
    destruct (Z.ltb_spec (- toDoubleAbs (- z)) 0); [|lia].
    by rewrite Z.opp_involutive, toDoubleAbs_idemp.
  - pose proof (toDoubleAbs_mono 0 z).
    rewrite (toDoubleAbs_exact 0) in * by done. unfold toDouble.
    destruct (Z.ltb_spec (toDoubleAbs z) 0); [lia|].
    apply toDoubleAbs_idemp.
Qed.



Lemma jsSub_safe n : safeInteger n → jsSub n 1 = n - 1.
Proof. unfold safeInteger, MAX_SAFE_INTEGER, jsSub. intros H. apply toDouble_exact. lia. Qed.


Lemma jsEq_exact a b :
  - 2 ^ 53 ≤ a ≤ 2 ^ 53 → - 2 ^ 53 ≤ b ≤ 2 ^ 53 → jsEq a b = (a =? b).
Proof. intros Ha Hb. unfold jsEq. by rewrite !toDouble_exact. Qed.

Lemma jsLt_irrefl a : jsLt a a = false.
Proof. apply Z.ltb_irrefl. Qed.

(** A number that compares as smaller is smaller. *)
Lemma jsLt_lt a b : jsLt a b = true → a < b.
Proof.
  unfold jsLt. intros H%Z.ltb_lt.
  destruct (Z.lt_ge_cases a b) as [|Hge]; [done|].
  apply toDouble_mono in Hge. lia.
Qed.

(** Below a number that compares as greater than the double [e], the
    number before it is not below [e] either. *)
Lemma jsLt_le_jsSub e n : toDouble e = e → jsLt e n = true → e ≤ jsSub n 1.
Proof.
  intros He Hlt%jsLt_lt. rewrite <- He. apply toDouble_mono. lia.
Qed.

Lemma jsAdd_double a b : toDouble (jsAdd a b) = jsAdd a b.
Proof. apply toDouble_idemp. Qed.

Lemma jsAdd_lower n : 1 ≤ n → 1 < jsAdd n 1.
Proof.
  intros H. unfold jsAdd. pose proof (toDouble_mono 2 (n + 1)).
  rewrite (toDouble_exact 2) in * by done. lia.
Qed.

(** ** Basic facts about the loop of processVerses *)

Lemma run_app ctx st xs ys : run ctx st (xs ++ ys) = run ctx (run ctx st xs) ys.
Proof. apply fold_left_app. Qed.

Lemma run_cons ctx st v vs : run ctx st (v :: vs) = run ctx (body ctx st v) vs.
Proof. done. Qed.

Lemma processVerses_snoc h pre v ctx log :
  processVerses h (pre ++ [v]) ctx log = body ctx (processVerses h pre ctx log) v.
Proof. unfold processVerses. by rewrite run_app. Qed.

Lemma processVerses_app h pre suf ctx log :
  processVerses h (pre ++ suf) ctx log = run ctx (processVerses h pre ctx log) suf.
Proof. apply run_app. Qed.

(** Assigning [endNumber] changes neither [number] nor [text], of any object. *)
Lemma storeEndNumber_number l x h l' :
  Verse.number (storeEndNumber l x h !!! l') = Verse.number (h !!! l').
Proof.
  unfold storeEndNumber. destruct (decide (l = l')) as [->|Hne].
  - by rewrite lookup_total_insert_eq.
  - by rewrite lookup_total_insert_ne.
Qed.

Lemma storeEndNumber_text l x h l' :
  Verse.text (storeEndNumber l x h !!! l') = Verse.text (h !!! l').
Proof.
  unfold storeEndNumber. destruct (decide (l = l')) as [->|Hne].
  - by rewrite lookup_total_insert_eq.
  - by rewrite lookup_total_insert_ne.
Qed.

Lemma storeEndNumber_isEmpty l x h l' :
  Verse.isEmpty (storeEndNumber l x h !!! l') = Verse.isEmpty (h !!! l').
Proof. unfold Verse.isEmpty. by rewrite storeEndNumber_text. Qed.

Lemma storeEndNumber_endNumber l x h :
  Verse.endNumber (storeEndNumber l x h !!! l) = Some x.
Proof. unfold storeEndNumber. by rewrite lookup_total_insert_eq. Qed.


(** Unfolds one iteration into its four statements. *)
Ltac step_body :=
  unfold body, advance, emptyCheck, gapCheck, initExpected, mergeInto; simpl.

(** Normalises reads of [number] and of the emptiness test through stores. *)
Ltac through_stores :=
  repeat (rewrite ?storeEndNumber_number, ?storeEndNumber_isEmpty,
            ?storeEndNumber_text; simpl).

(** All the paths through one iteration. *)
Ltac body_cases st :=
  let He := fresh "He" in
  let Hl := fresh "Hl" in
  step_body;
  destruct (expectedNumber st) eqn:He, (lastVerse st) eqn:Hl; simpl;
  repeat (rewrite ?He, ?Hl in *; simpl in *);
  repeat (case_match; simpl in *;
          rewrite ?storeEndNumber_isEmpty, ?storeEndNumber_number,
            ?storeEndNumber_text in *);
  try congruence.

Lemma body_number ctx st v l :
  Verse.number (heap (body ctx st v) !!! l) = Verse.number (heap st !!! l).
Proof.
  step_body.
  destruct (expectedNumber st), (lastVerse st); simpl;
    repeat (case_match; simpl; through_stores); done.
Qed.

Lemma body_text ctx st v l :
  Verse.text (heap (body ctx st v) !!! l) = Verse.text (heap st !!! l).
Proof.
  step_body.
  destruct (expectedNumber st), (lastVerse st); simpl;
    repeat (case_match; simpl; through_stores); done.
Qed.

Lemma run_number ctx verses : ∀ st l,
  Verse.number (heap (run ctx st verses) !!! l) = Verse.number (heap st !!! l).
Proof.
  induction verses as [|v verses IH]; intros st l; [done|].
  by rewrite run_cons, IH, body_number.
Qed.

Lemma run_text ctx verses : ∀ st l,
  Verse.text (heap (run ctx st verses) !!! l) = Verse.text (heap st !!! l).
Proof.
  induction verses as [|v verses IH]; intros st l; [done|].
  by rewrite run_cons, IH, body_text.
Qed.

Lemma run_isEmpty ctx verses st l :
  Verse.isEmpty (heap (run ctx st verses) !!! l) = Verse.isEmpty (heap st !!! l).
Proof. unfold Verse.isEmpty. by rewrite run_text. Qed.

(** [fixed] is never reset. *)
Lemma body_fixed ctx st v : fixed st = true → fixed (body ctx st v) = true.
Proof.
  intros Hf. step_body.
  destruct (expectedNumber st), (lastVerse st); simpl;
    repeat (case_match; simpl); done.
Qed.

Lemma run_fixed ctx verses : ∀ st, fixed st = true → fixed (run ctx st verses) = true.
Proof.
  induction verses as [|v verses IH]; intros st Hf; [done|].
  rewrite run_cons. apply IH. by apply body_fixed.
Qed.

(** The log only grows. *)
Lemma body_log_prefix ctx st v : verseLog st `prefix_of` verseLog (body ctx st v).
Proof.
  step_body.
  destruct (expectedNumber st), (lastVerse st); simpl;
    repeat (case_match; simpl); rewrite <- ?app_assoc;
    try done; by apply prefix_app_r.
Qed.

Lemma run_log_prefix ctx verses : ∀ st, verseLog st `prefix_of` verseLog (run ctx st verses).
Proof.
  induction verses as [|v verses IH]; intros st; [done|].
  rewrite run_cons. etrans; [apply body_log_prefix | apply IH].
Qed.

(** What the test on the text decides, in words: the text is absent, or
    nothing is left of it after trimming. *)
Lemma isEmpty_spec v :
  Verse.isEmpty v = true ↔ Verse.text v = None ∨ ∃ s, Verse.text v = Some s ∧ trim s = [].
Proof.
  unfold Verse.isEmpty. destruct (Verse.text v) as [s|]; [|naive_solver].
  split.
  - intros [->%bool_decide_eq_true | H%bool_decide_eq_true]%orb_true_iff;
      right; eexists; split; done.
  - intros [|(s' & [= <-] & Hs)]; [done|].
    apply orb_true_iff. right. by apply bool_decide_eq_true.
Qed.

(** One iteration when both blocks fire. *)
Lemma body_gap_empty ctx st v l e :
  lastVerse st = Some l → expectedNumber st = Some e →
  jsLt e (Verse.number (heap st !!! v)) = true →
  Verse.isEmpty (heap st !!! v) = true →
  let n := Verse.number (heap st !!! v) in
  body ctx st v =
    {| result := result st; lastVerse := Some l;
       expectedNumber := Some (jsAdd n 1);
       fixed := true;
       heap := storeEndNumber l n (storeEndNumber l (jsSub n 1) (heap st));
       verseLog := verseLog st
         ++ [Entry.mk missing e (jsSub n 1) ctx; Entry.mk empty n n ctx];
       stores := stores st ++ [(l, jsSub n 1); (l, n)] |}.
Proof.
  intros Hl He Hlt Hemp n. step_body.
  repeat (rewrite ?He, ?Hl, ?Hlt, ?Hemp; simpl; through_stores).
  by rewrite <- !app_assoc.
Qed.

(** One iteration when only the gap block fires. *)
Lemma body_gap_kept ctx st v l e :
  lastVerse st = Some l → expectedNumber st = Some e →
  jsLt e (Verse.number (heap st !!! v)) = true →
  Verse.isEmpty (heap st !!! v) = false →
  let n := Verse.number (heap st !!! v) in
  body ctx st v =
    {| result := result st ++ [v]; lastVerse := Some v;
       expectedNumber := Some (jsAdd n 1);
       fixed := true;
       heap := storeEndNumber l (jsSub n 1) (heap st);
       verseLog := verseLog st ++ [Entry.mk missing e (jsSub n 1) ctx];
       stores := stores st ++ [(l, jsSub n 1)] |}.
Proof.
  intros Hl He Hlt Hemp n. step_body.
  by repeat (rewrite ?He, ?Hl, ?Hlt, ?Hemp; simpl; through_stores).
Qed.

(** One iteration when only the empty-text block fires. *)
Lemma body_empty_only ctx st v l :
  lastVerse st = Some l →
  jsLt (default (Verse.number (heap st !!! v)) (expectedNumber st))
    (Verse.number (heap st !!! v)) = false →
  Verse.isEmpty (heap st !!! v) = true →
  let n := Verse.number (heap st !!! v) in
  body ctx st v =
    {| result := result st; lastVerse := Some l;
       expectedNumber := Some (jsAdd n 1);
       fixed := true;
       heap := storeEndNumber l n (heap st);
       verseLog := verseLog st ++ [Entry.mk empty n n ctx];
       stores := stores st ++ [(l, n)] |}.
Proof.
  intros Hl Hge Hemp n. step_body.
  destruct (expectedNumber st) as [e|] eqn:He; simpl in *.
  - by repeat (rewrite ?He, ?Hl, ?Hge, ?Hemp; simpl; through_stores).
  - by repeat (rewrite ?Hl, ?jsLt_irrefl, ?Hemp; simpl; through_stores).
Qed.

(** One iteration while nothing has been kept: no block repairs anything. *)
Lemma body_no_predecessor ctx st v :
  lastVerse st = None →
  let n := Verse.number (heap st !!! v) in
  let keep := negb (Verse.isEmpty (heap st !!! v)) in
  body ctx st v =
    {| result := if keep then result st ++ [v] else result st;
       lastVerse := if keep then Some v else None;
       expectedNumber := Some (jsAdd n 1);
       fixed := fixed st; heap := heap st; verseLog := verseLog st;
       stores := stores st |}.
Proof.
  intros Hl n keep. subst keep. step_body.
  destruct (expectedNumber st) as [e|] eqn:He; simpl;
    destruct (Verse.isEmpty (heap st !!! v)) eqn:Hemp;
    by repeat (rewrite ?He, ?Hl, ?Hemp; simpl).
Qed.

(** What an iteration does to [result] and [lastVerse] depends on the
    text of the verse alone. *)
Lemma body_result ctx st v :
  result (body ctx st v) =
    if Verse.isEmpty (heap st !!! v) then result st else result st ++ [v].
Proof.
  by body_cases st.
Qed.

Lemma body_lastVerse ctx st v :
  lastVerse (body ctx st v) =
    if Verse.isEmpty (heap st !!! v) then lastVerse st else Some v.
Proof.
  by body_cases st.
Qed.

Lemma body_expectedNumber ctx st v :
  expectedNumber (body ctx st v) = Some (jsAdd (Verse.number (heap st !!! v)) 1).
Proof.
  by body_cases st.
Qed.

Lemma body_isEmpty ctx st v l :
  Verse.isEmpty (heap (body ctx st v) !!! l) = Verse.isEmpty (heap st !!! l).
Proof. unfold Verse.isEmpty. by rewrite body_text. Qed.

Lemma body_keptHaveText ctx st v : keptHaveText st → keptHaveText (body ctx st v).
Proof.
  unfold keptHaveText. intros H. rewrite body_result.
  destruct (Verse.isEmpty (heap st !!! v)) eqn:Hv.
  - eapply Forall_impl; [exact H|]. intros l Hl. by rewrite body_isEmpty.
  - apply Forall_app. split.
    + eapply Forall_impl; [exact H|]. intros l Hl. by rewrite body_isEmpty.
    + constructor; [|constructor]. by rewrite body_isEmpty.
Qed.

Lemma run_keptHaveText ctx verses : ∀ st, keptHaveText st → keptHaveText (run ctx st verses).
Proof.
  induction verses as [|v verses IH]; intros st H; [done|].
  rewrite run_cons. by apply IH, body_keptHaveText.
Qed.

Lemma processVerses_keptHaveText h verses ctx log :
  keptHaveText (processVerses h verses ctx log).
Proof. apply run_keptHaveText. constructor. Qed.

(** A verse without text is in no output. *)
Lemma empty_not_kept h verses ctx log v :
  Verse.isEmpty (h !!! v) = true → v ∉ result (processVerses h verses ctx log).
Proof.
  intros Hv Hin.
  pose proof (processVerses_keptHaveText h verses ctx log) as H.
  unfold keptHaveText in H. rewrite Forall_forall in H. apply H in Hin.
  unfold processVerses in Hin. rewrite run_isEmpty in Hin. simpl in Hin. congruence.
Qed.

Lemma isEmpty_false_spec v :
  Verse.isEmpty v = false ↔ ∃ s, Verse.text v = Some s ∧ s ≠ [] ∧ trim s ≠ [].
Proof.
  unfold Verse.isEmpty. destruct (Verse.text v) as [s|].
  - rewrite orb_false_iff, !bool_decide_eq_false. split.
    + intros [? ?]. by exists s.
    + by intros (s' & [= <-] & ? & ?).
  - split; [done|]. by intros (s & ? & _).
Qed.

(** C8: every verse of the sequence that processVerses returns has a text
    that is present, not the empty string, and not empty after trimming;
    this holds for every input sequence, a leading empty verse included. *)
Theorem output_verses_have_text h verses ctx log :
  let st := processVerses h verses ctx log in
  Forall (λ x, ∃ s, Verse.text x = Some s ∧ s ≠ [] ∧ trim s ≠ [])
    (deref (heap st) (result st)).
Proof.
  intros st. unfold deref. apply Forall_fmap.
  eapply Forall_impl; [apply processVerses_keptHaveText|].
  intros l Hl. simpl. by apply isEmpty_false_spec.
Qed.

(** C10: a verse that is reached with a kept predecessor, whose number
    compares as greater than the expected number ([v.number >
    expectedNumber]) and whose text is empty, appends exactly two entries
    to the log: the missing range [expectedNumber, v.number - 1] and,
    immediately after it, the empty verse [v.number, v.number].  Here
    [v.number - 1] is the number that JavaScript computes, [jsSub n 1];
    it is the integer [n - 1] whenever [n] is a safe integer. *)
Theorem gap_and_empty_append_two h pre v ctx log l e :
  let st := processVerses h pre ctx log in
  let n := Verse.number (heap st !!! v) in
  lastVerse st = Some l →
  expectedNumber st = Some e →
  jsLt e n = true →
  Verse.isEmpty (heap st !!! v) = true →
  verseLog (processVerses h (pre ++ [v]) ctx log) =
    verseLog st ++ [Entry.mk missing e (jsSub n 1) ctx; Entry.mk empty n n ctx]
  ∧ (safeInteger n → jsSub n 1 = n - 1).
Proof.
  intros st n Hl He Hlt Hemp. split; [|apply jsSub_safe].
  rewrite processVerses_snoc. fold st.
  by rewrite (body_gap_empty ctx st v l e).
Qed.

Lemma gap_and_empty_append_two_witness :
  let st := processVerses gapThenEmpty.1 [1%positive] ctxA [] in
  lastVerse st = Some 1%positive ∧ expectedNumber st = Some 2
  ∧ jsLt 2 4 = true
  ∧ verseLog (processVerses gapThenEmpty.1 ([1%positive] ++ [2%positive]) ctxA []) =
      verseLog st ++ [Entry.mk missing 2 (jsSub 4 1) ctxA; Entry.mk empty 4 4 ctxA]
  ∧ jsSub 4 1 = 3.
Proof.
  split; [reflexivity|]. split; [reflexivity|]. split; [reflexivity|].
  split; [|reflexivity].
  apply (gap_and_empty_append_two gapThenEmpty.1 [1%positive] 2%positive ctxA [] 1%positive 2);
    reflexivity.
Defined.

Lemma processVerses_fixed_later h pre v suf ctx log :
  fixed (processVerses h (pre ++ [v]) ctx log) = true →
  fixed (processVerses h (pre ++ v :: suf) ctx log) = true.
Proof.
  intros Hf. change (pre ++ v :: suf) with (pre ++ [v] ++ suf).
  rewrite app_assoc, processVerses_app. by apply run_fixed.
Qed.

(** C3: a verse reached with a kept predecessor [l] and a number that
    compares as greater than the expected number ([v.number >
    expectedNumber]) makes processVerses assign [l.endNumber = v.number -
    1], set [fixed], and append one missing-range entry [expectedNumber,
    v.number - 1] with the context.  [v.number - 1] is the number that
    JavaScript computes, [jsSub n 1]; it is the integer [n - 1] whenever
    [n] is a safe integer.  The assignment is the next one in the
    history of stores; when the verse is also empty the empty-text block
    follows with its own assignment and entry.  Scenario B: verses 1, 2, 5
    give verse 2 the end number 4 and the single entry missing [3,4]. *)
Theorem gap_detection :
  (∀ h pre v suf ctx log l e,
     let st := processVerses h pre ctx log in
     let n := Verse.number (heap st !!! v) in
     lastVerse st = Some l →
     expectedNumber st = Some e →
     jsLt e n = true →
     let st1 := processVerses h (pre ++ [v]) ctx log in
     let isEmpty := Verse.isEmpty (heap st !!! v) in
     Verse.endNumber (heap (gapCheck ctx v (initExpected v st)) !!! l)
       = Some (jsSub n 1)
     ∧ stores st1 = stores st ++ (l, jsSub n 1) :: (if isEmpty then [(l, n)] else [])
     ∧ Verse.endNumber (heap st1 !!! l) = Some (if isEmpty then n else jsSub n 1)
     ∧ fixed st1 = true
     ∧ verseLog st1 =
         verseLog st ++ Entry.mk missing e (jsSub n 1) ctx
           :: (if isEmpty then [Entry.mk empty n n ctx] else [])
     ∧ fixed (processVerses h (pre ++ v :: suf) ctx log) = true
     ∧ (safeInteger n → jsSub n 1 = n - 1))
  ∧ (let st := processVerses scenarioB.1 scenarioB.2 ctxA [] in
     deref (heap st) (result st) =
       [Verse.mk 1 (Some (js "A")) None;
        Verse.mk 2 (Some (js "B")) (Some 4);
        Verse.mk 5 (Some (js "C")) None]
     ∧ verseLog st = [Entry.mk missing 3 4 ctxA]
     ∧ fixed st = true).
Proof.
  split; [|by vm_compute].
  intros h pre v suf ctx log l e st n Hl He Hlt st1 isEmpty.
  split.
  { unfold gapCheck, initExpected, mergeInto. rewrite He. simpl. rewrite Hl, He. simpl.
    fold n. rewrite Hlt. simpl.
    apply storeEndNumber_endNumber. }
  assert (Hlater : fixed st1 = true →
            fixed (processVerses h (pre ++ v :: suf) ctx log) = true)
    by apply processVerses_fixed_later.
  revert Hlater. subst st1 isEmpty. rewrite processVerses_snoc. fold st.
  destruct (Verse.isEmpty (heap st !!! v)) eqn:Hemp.
  - rewrite (body_gap_empty ctx st v l e) by done. simpl.
    rewrite storeEndNumber_endNumber. fold n. intros Hlater.
    repeat (split; [done|]). split; [by apply Hlater|apply jsSub_safe].
  - rewrite (body_gap_kept ctx st v l e) by done. simpl.
    rewrite storeEndNumber_endNumber. fold n. intros Hlater.
    repeat (split; [done|]). split; [by apply Hlater|apply jsSub_safe].
Qed.

Lemma gap_detection_witness :
  let h := scenarioB.1 in
  let st := processVerses h [1; 2]%positive ctxA [] in
  lastVerse st = Some 2%positive ∧ expectedNumber st = Some 3
  ∧ jsLt 3 (Verse.number (heap st !!! 3%positive)) = true
  ∧ stores (processVerses h ([1; 2]%positive ++ [3%positive]) ctxA []) =
      stores st ++ [(2%positive, jsSub 5 1)]
  ∧ jsSub 5 1 = 4.
Proof.
  split; [reflexivity|]. split; [reflexivity|]. split; [reflexivity|].
  split; [|reflexivity].
  exact (proj1 (proj2 (proj1 gap_detection scenarioB.1 [1; 2]%positive 3%positive []
                         ctxA [] 2%positive 3 eq_refl eq_refl eq_refl))).
Defined.

(** Where the numbers are no safe integers the values of C3 and C10 are
    the rounded ones.  After the verse 2^53 the expected number is 2^53
    again; the verse 2^53 + 2 then gives its predecessor the end number
    2^53, the double that [2^53 + 2 - 1] rounds to, and the entry logged
    is missing [2^53, 2^53]. *)
Lemma gap_beyond_safe_integers :
  (let st := processVerses largeGap.1 largeGap.2 ctxA [] in
   deref (heap st) (result st) =
     [Verse.mk (2 ^ 53) (Some (js "A")) (Some (2 ^ 53));
      Verse.mk (2 ^ 53 + 2) (Some (js "B")) None]
   ∧ verseLog st = [Entry.mk missing (2 ^ 53) (2 ^ 53) ctxA])
  ∧ (let st := processVerses largeGapEmpty.1 largeGapEmpty.2 ctxA [] in
     verseLog st = [Entry.mk missing (2 ^ 53) (2 ^ 53) ctxA;
                    Entry.mk empty (2 ^ 53 + 2) (2 ^ 53 + 2) ctxA]).
Proof. by vm_compute. Qed.

(** C4: a verse whose text is absent or empty after trimming, reached with
    a kept predecessor [l], makes processVerses assign [l.endNumber =
    number] (the last assignment of the iteration), set [fixed], append
    one empty entry [number, number] (after the entry of the gap block,
    if that fired), and leave the verse out of the result.  Scenario A:
    verse 2 of 1, 2, 3 is empty; the output is verse 1 with end number 2
    and verse 3, and the log is the single entry empty [2,2]. *)
Theorem empty_verse_merge :
  (∀ h pre v suf ctx log l,
     let st := processVerses h pre ctx log in
     let n := Verse.number (heap st !!! v) in
     lastVerse st = Some l →
     (Verse.text (heap st !!! v) = None
      ∨ ∃ s, Verse.text (heap st !!! v) = Some s ∧ trim s = []) →
     let st1 := processVerses h (pre ++ [v]) ctx log in
     Verse.endNumber (heap st1 !!! l) = Some n
     ∧ last (stores st1) = Some (l, n)
     ∧ fixed st1 = true
     ∧ (∃ gap, verseLog st1 = verseLog st ++ gap ++ [Entry.mk empty n n ctx]
               ∧ Forall (λ x, Entry.type x = missing) gap ∧ (length gap ≤ 1)%nat)
     ∧ result st1 = result st
     ∧ lastVerse st1 = Some l
     ∧ v ∉ result (processVerses h (pre ++ v :: suf) ctx log))
  ∧ (let st := processVerses scenarioA.1 scenarioA.2 ctxA [] in
     deref (heap st) (result st) =
       [Verse.mk 1 (Some (js "In the beginning")) (Some 2);
        Verse.mk 3 (Some (js "And the earth")) None]
     ∧ verseLog st = [Entry.mk empty 2 2 ctxA]
     ∧ fixed st = true).
Proof.
  split; [|by vm_compute].
  intros h pre v suf ctx log l st n Hl Htext st1.
  apply isEmpty_spec in Htext.
  assert (Hout : v ∉ result (processVerses h (pre ++ v :: suf) ctx log)).
  { apply empty_not_kept. subst st. unfold processVerses in Htext.
    by rewrite run_isEmpty in Htext. }
  subst st1. rewrite processVerses_snoc. fold st.
  destruct (jsLt (default n (expectedNumber st)) n) eqn:Hlt.
  - destruct (expectedNumber st) as [e|] eqn:He; simpl in Hlt;
      [|by rewrite jsLt_irrefl in Hlt].
    rewrite (body_gap_empty ctx st v l e) by done. simpl.
    rewrite storeEndNumber_endNumber, last_app_cons. fold n.
    repeat (split; [done|]). split; [|done].
    exists [Entry.mk missing e (jsSub n 1) ctx]. simpl. repeat constructor.
  - rewrite (body_empty_only ctx st v l) by done. simpl.
    rewrite storeEndNumber_endNumber, last_snoc. fold n.
    repeat (split; [done|]). split; [|done].
    exists []. simpl. repeat constructor.
Qed.

Lemma empty_verse_merge_witness :
  let h := scenarioA.1 in
  let st := processVerses h [1%positive] ctxA [] in
  lastVerse st = Some 1%positive
  ∧ (Verse.text (heap st !!! 2%positive) = None
     ∨ ∃ s, Verse.text (heap st !!! 2%positive) = Some s ∧ trim s = [])
  ∧ Verse.endNumber (heap (processVerses h ([1%positive] ++ [2%positive]) ctxA [])
                       !!! 1%positive) = Some 2.
Proof.
  assert (Ht : Verse.text (heap (processVerses scenarioA.1 [1%positive] ctxA [])
                 !!! 2%positive) = None
     ∨ ∃ s, Verse.text (heap (processVerses scenarioA.1 [1%positive] ctxA [])
                 !!! 2%positive) = Some s ∧ trim s = []).
  { right. exists []. split; reflexivity. }
  split; [reflexivity|]. split; [exact Ht|].
  exact (proj1 (proj1 empty_verse_merge scenarioA.1 [1%positive] 2%positive []
                  ctxA [] 1%positive eq_refl Ht)).
Defined.

Lemma body_verseLog ctx st v :
  verseLog (body ctx st v) = verseLog st ++ (snd <$> repairs ctx st v).
Proof.
  unfold repairs. body_cases st; rewrite ?jsLt_irrefl in *; simpl;
    rewrite <- ?app_assoc, ?app_nil_r; simpl; congruence.
Qed.

Lemma body_stores ctx st v :
  stores (body ctx st v) = stores st ++ (fst <$> repairs ctx st v).
Proof.
  unfold repairs. body_cases st; rewrite ?jsLt_irrefl in *; simpl;
    rewrite <- ?app_assoc, ?app_nil_r; simpl; congruence.
Qed.

Lemma body_unrepaired ctx st v :
  repairs ctx st v = [] → fixed (body ctx st v) = fixed st ∧ heap (body ctx st v) = heap st.
Proof.
  unfold repairs. body_cases st; rewrite ?jsLt_irrefl in *; simpl in *; try done.
Qed.

Lemma filter_all {A} (P : A → Prop) `{!∀ x, Decision (P x)} (l : list A) :
  Forall P l → filter P l = l.
Proof.
  induction 1 as [|x l Hx _ IH]; [done|].
  by rewrite filter_cons_True, IH.
Qed.

Lemma filter_none {A} (P : A → Prop) `{!∀ x, Decision (P x)} (l : list A) :
  Forall (λ x, ¬ P x) l → filter P l = [].
Proof.
  induction 1 as [|x l Hx _ IH]; [done|].
  by rewrite filter_cons_False.
Qed.

(** The result is the input without its verses that have no text. *)
Lemma run_result ctx verses : ∀ st,
  result (run ctx st verses) =
    result st ++ filter (λ l, Verse.isEmpty (heap st !!! l) = false) verses.
Proof.
  induction verses as [|v verses IH]; intros st.
  - simpl. by rewrite app_nil_r.
  - rewrite run_cons, IH, body_result, filter_cons.
    erewrite (list_filter_iff _ (λ l, Verse.isEmpty (heap st !!! l) = false));
      [|intros l; by rewrite body_isEmpty].
    destruct (Verse.isEmpty (heap st !!! v)) eqn:Hv.
    + by rewrite decide_False by done.
    + rewrite decide_True by done. by rewrite <- app_assoc.
Qed.

Lemma repairs_nil_inv ctx st v :
  repairs ctx st v = [] →
  is_Some (lastVerse st) → Verse.isEmpty (heap st !!! v) = false.
Proof.
  unfold repairs. intros H [l Hl]. rewrite Hl in H.
  apply app_eq_nil in H as [_ H].
  by destruct (Verse.isEmpty (heap st !!! v)).
Qed.

(** A run that logs nothing changes nothing, and its input is a block of
    verses without text, met while nothing was kept, followed by verses
    that all have text. *)
Lemma run_no_defect ctx verses : ∀ st,
  verseLog (run ctx st verses) = verseLog st →
  fixed (run ctx st verses) = fixed st
  ∧ heap (run ctx st verses) = heap st
  ∧ stores (run ctx st verses) = stores st
  ∧ (is_Some (lastVerse st) →
       Forall (λ l, Verse.isEmpty (heap st !!! l) = false) verses)
  ∧ ∃ lead kept, verses = lead ++ kept
      ∧ Forall (λ l, Verse.isEmpty (heap st !!! l) = true) lead
      ∧ Forall (λ l, Verse.isEmpty (heap st !!! l) = false) kept.
Proof.
  induction verses as [|v verses IH]; intros st Hlog.
  - repeat (split; [done|]). exists [], []. by repeat constructor.
  - rewrite run_cons in *.
    destruct (run_log_prefix ctx verses (body ctx st v)) as [new Hnew].
    rewrite Hnew, body_verseLog, <- app_assoc in Hlog.
    rewrite <- (app_nil_r (verseLog st)) in Hlog at 2.
    apply app_inv_head, app_eq_nil in Hlog as [Hrep ->].
    apply fmap_nil_inv in Hrep.
    rewrite app_nil_r in Hnew.
    destruct (IH _ Hnew) as (Hf & Hh & Hs & Hkept & lead & kept & -> & Hlead & Hk).
    destruct (body_unrepaired ctx st v Hrep) as [Hf' Hh'].
    rewrite Hf, Hh, Hs, Hf', Hh', body_stores, Hrep. simpl. rewrite app_nil_r.
    rewrite Hh' in Hkept, Hlead, Hk. rewrite body_lastVerse in Hkept.
    repeat (split; [done|]).
    destruct (Verse.isEmpty (heap st !!! v)) eqn:Hv.
    + split.
      * intros Hsome. by rewrite (repairs_nil_inv ctx st v Hrep Hsome) in Hv.
      * exists (v :: lead), kept. split; [done|]. split; [by constructor|done].
    + specialize (Hkept ltac:(eauto)). split.
      * intros _. by constructor.
      * exists [], (v :: lead ++ kept). split; [done|]. split; by constructor.
Qed.

(** C1, as stated, fails: a chapter whose first verse is empty records no
    defect and is not marked modified, but the sequence returned lacks
    that verse. *)
Lemma no_defect_identity_counterexample :
  let st := processVerses leadingEmpty.1 leadingEmpty.2 ctxA [] in
  verseLog st = []
  ∧ ¬ (fixed st = false
       ∧ deref (heap st) (result st) = deref leadingEmpty.1 leadingEmpty.2).
Proof. split; [reflexivity|]. intros [_ H]. vm_compute in H. discriminate H. Qed.

(** C1, amended: when processVerses records no defect entry it returns
    [fixed = false], assigns no end number (the store is unchanged), and
    the sequence returned is the input without the empty verses at its
    head, which are dropped without an entry; every other verse has text
    and is returned.  It is the input itself when the first verse has
    text. *)
Theorem no_defect_identity h verses ctx log :
  let st := processVerses h verses ctx log in
  verseLog st = log →
  fixed st = false
  ∧ heap st = h
  ∧ stores st = []
  ∧ (∃ lead, verses = lead ++ result st
       ∧ Forall (λ l, Verse.isEmpty (h !!! l) = true) lead
       ∧ Forall (λ l, Verse.isEmpty (h !!! l) = false) (result st))
  ∧ (∀ v rest, verses = v :: rest → Verse.isEmpty (h !!! v) = false →
       result st = verses ∧ deref (heap st) (result st) = deref h verses).
Proof.
  intros st Hlog.
  destruct (run_no_defect ctx verses (init h log) Hlog)
    as (Hf & Hh & Hs & _ & lead & kept & -> & Hlead & Hk).
  simpl in *. fold (processVerses h (lead ++ kept) ctx log) in Hf, Hh, Hs.
  fold st in Hf, Hh, Hs.
  assert (Hres : result st = kept).
  { unfold st, processVerses. rewrite run_result. simpl.
    rewrite filter_app.
    rewrite filter_none, filter_all; [done..|].
    eapply Forall_impl; [exact Hlead|]. simpl. intros l Hl. congruence. }
  repeat (split; [done|]). split.
  - exists lead. by rewrite Hres.
  - intros v rest Heq Hv. rewrite Hh, Hres.
    destruct lead as [|l lead]; simpl in *; [done|].
    apply Forall_cons in Hlead as [Hl _].
    injection Heq as -> _. congruence.
Qed.

Lemma no_defect_identity_witness :
  let st := processVerses leadingEmpty.1 leadingEmpty.2 ctxA [] in
  verseLog st = [] ∧ fixed st = false ∧ heap st = leadingEmpty.1.
Proof.
  split; [reflexivity|].
  pose proof (no_defect_identity leadingEmpty.1 leadingEmpty.2 ctxA [] eq_refl) as H.
  split; [exact (proj1 H) | exact (proj1 (proj2 H))].
Defined.

Lemma processVerses_single h v ctx log :
  processVerses h [v] ctx log = body ctx (init h log) v.
Proof. done. Qed.

Lemma processVerses_cons h v rest ctx log :
  processVerses h (v :: rest) ctx log = run ctx (body ctx (init h log) v) rest.
Proof. done. Qed.

(** While every number is at least 1 and the expected number is above 1,
    no missing range that is logged starts at 1 or below. *)
Lemma run_missing_start ctx verses : ∀ st,
  (∀ e, expectedNumber st = Some e → 1 < e) →
  Forall (λ l, 1 ≤ Verse.number (heap st !!! l)) verses →
  ∃ new, verseLog (run ctx st verses) = verseLog st ++ new
         ∧ Forall (λ x, Entry.type x = missing → 1 < Entry.start x) new.
Proof.
  induction verses as [|v verses IH]; intros st He Hnum.
  - exists []. by rewrite app_nil_r.
  - apply Forall_cons in Hnum as [Hv Hnum]. rewrite run_cons.
    destruct (IH (body ctx st v)) as (new & Hnew & Hall).
    + rewrite body_expectedNumber. intros e [= <-]. by apply jsAdd_lower.
    + eapply Forall_impl; [exact Hnum|]. intros l Hl. cbv beta. by rewrite body_number.
    + exists ((snd <$> repairs ctx st v) ++ new).
      rewrite Hnew, body_verseLog, <- app_assoc. split; [done|].
      apply Forall_app. split; [|done].
      unfold repairs. destruct (lastVerse st); [|constructor].
      rewrite fmap_app. apply Forall_app. split.
      * destruct (expectedNumber st) as [e|] eqn:Hexp; simpl.
        -- specialize (He e eq_refl). case_match; repeat constructor. simpl. lia.
        -- rewrite jsLt_irrefl. constructor.
      * case_match; repeat constructor. done.
Qed.

(** C5: a first verse without text is dropped, and nothing is logged,
    marked or assigned for it; a first verse with a number above 1 has no
    missing range logged for the numbers before it, since nothing has
    been kept that could absorb them.  With verse numbers from 1 upwards
    no missing range starting at 1 is ever logged by the run. *)
Theorem leading_defects :
  (∀ h v rest ctx log,
     (Verse.text (h !!! v) = None ∨ ∃ s, Verse.text (h !!! v) = Some s ∧ trim s = []) →
     let st1 := processVerses h [v] ctx log in
     result st1 = [] ∧ lastVerse st1 = None ∧ verseLog st1 = log
     ∧ fixed st1 = false ∧ heap st1 = h ∧ stores st1 = []
     ∧ v ∉ result (processVerses h (v :: rest) ctx log))
  ∧ (∀ h v rest ctx log,
     1 < Verse.number (h !!! v) →
     let st1 := processVerses h [v] ctx log in
     verseLog st1 = log ∧ fixed st1 = false ∧ heap st1 = h ∧ stores st1 = []
     ∧ (Forall (λ l, 1 ≤ Verse.number (h !!! l)) rest →
        ∃ new, verseLog (processVerses h (v :: rest) ctx log) = log ++ new
               ∧ Forall (λ x, Entry.type x = missing → 1 < Entry.start x) new)).
Proof.
  split.
  - intros h v rest ctx log Htext%isEmpty_spec st1.
    subst st1. rewrite processVerses_single, body_no_predecessor by done.
    simpl. rewrite Htext. simpl. repeat (split; [done|]).
    by apply empty_not_kept.
  - intros h v rest ctx log Hn st1.
    subst st1. rewrite processVerses_single, processVerses_cons.
    rewrite body_no_predecessor by done. simpl. repeat (split; [done|]).
    intros Hrest. apply (run_missing_start ctx rest); simpl; [|done].
    intros e [= <-]. apply jsAdd_lower. lia.
Qed.

Lemma leading_defects_witness :
  (let h := leadingEmpty.1 in
   (Verse.text (h !!! 1%positive) = None
    ∨ ∃ s, Verse.text (h !!! 1%positive) = Some s ∧ trim s = [])
   ∧ verseLog (processVerses h [1%positive] ctxA []) = [])
  ∧ (let h := leadingGap.1 in
     1 < Verse.number (h !!! 1%positive)
     ∧ verseLog (processVerses h [1%positive] ctxA []) = []).
Proof.
  assert (Ht : Verse.text (leadingEmpty.1 !!! 1%positive) = None
    ∨ ∃ s, Verse.text (leadingEmpty.1 !!! 1%positive) = Some s ∧ trim s = []).
  { right. exists []. split; reflexivity. }
  split.
  - split; [exact Ht|].
    exact (proj1 (proj2 (proj2
      (proj1 leading_defects leadingEmpty.1 1%positive [2%positive] ctxA [] Ht)))).
  - split; [reflexivity|].
    exact (proj1
      (proj2 leading_defects leadingGap.1 1%positive [2; 3]%positive ctxA [] eq_refl)).
Defined.








(** ** The grouping loop *)

Lemma fresh_unused (h : eheap) : h !! fresh (dom h) = None.
Proof. apply not_elem_of_dom, is_fresh. Qed.

Lemma groupInv_init h0 : groupInv h0 h0 [].
Proof. split; [done|]. split; constructor. Qed.

Lemma groupInv_push h0 h grouped e :
  groupInv h0 h grouped →
  groupInv h0 (<[fresh (dom h) := e]> h) (grouped ++ [fresh (dom h)]).
Proof.
  intros (Hold & Hnew & Hnd). pose proof (fresh_unused h) as Hfresh.
  set (l := fresh (dom h)) in *.
  assert (Hl0 : h0 !! l = None).
  { destruct (h0 !! l) eqn:H0; [|done].
    rewrite <- (Hold l), Hfresh in H0 by (by rewrite H0). done. }
  assert (Hnotin : l ∉ grouped).
  { intros Hin. rewrite Forall_forall in Hnew.
    destruct (Hnew _ Hin) as [[x Hx] _]. congruence. }
  split; [|split].
  - intros l' Hl'. rewrite lookup_insert_ne; [by apply Hold|].
    intros ->. rewrite Hl0 in Hl'. by destruct Hl'.
  - apply Forall_app. split.
    + eapply Forall_impl; [exact Hnew|]. intros l' [Hs Hn]. split; [|done].
      rewrite lookup_insert. case_decide; [by eexists | done].
    + constructor; [|constructor]. split; [|done].
      rewrite lookup_insert_eq. by eexists.
  - apply NoDup_app. split; [done|]. split; [|apply NoDup_singleton].
    intros x Hx ->%list_elem_of_singleton. done.
Qed.

Lemma groupInv_extend h0 h grouped lst e :
  groupInv h0 h grouped → last grouped = Some lst →
  groupInv h0 (<[lst := e]> h) grouped.
Proof.
  intros (Hold & Hnew & Hnd) Hlast.
  assert (Hl0 : h0 !! lst = None).
  { rewrite Forall_forall in Hnew.
    by destruct (Hnew lst (last_Some_elem_of _ _ Hlast)). }
  split; [|split]; [| |done].
  - intros l' Hl'. rewrite lookup_insert_ne; [by apply Hold|].
    intros ->. rewrite Hl0 in Hl'. by destruct Hl'.
  - eapply Forall_impl; [exact Hnew|]. intros l' [Hs Hn]. split; [|done].
    rewrite lookup_insert. case_decide; [by eexists | done].
Qed.

Lemma groupStep_inv h0 h grouped entry :
  groupInv h0 h grouped →
  groupInv h0 (groupStep (h, grouped) entry).1 (groupStep (h, grouped) entry).2.
Proof.
  intros Hinv. unfold groupStep. simpl.
  destruct (last grouped) as [lst|] eqn:Hlast.
  - destruct (continues _ _); simpl.
    + by eapply groupInv_extend.
    + by apply groupInv_push.
  - by apply groupInv_push.
Qed.

Lemma logGroupedErrors_inv h0 verseLog : ∀ h grouped,
  groupInv h0 h grouped →
  groupInv h0 (fold_left groupStep verseLog (h, grouped)).1
              (fold_left groupStep verseLog (h, grouped)).2.
Proof.
  induction verseLog as [|entry verseLog IH]; intros h grouped Hinv; [done|].
  simpl. pose proof (groupStep_inv h0 h grouped entry Hinv) as Hstep.
  destruct (groupStep (h, grouped) entry) as [h' grouped']. by apply IH.
Qed.

(** C9: the grouping loop of logGroupedErrors leaves every object that
    existed before the call as it was, so each entry of the input log has
    the same type, start, end and context afterwards; the objects it
    assigns to are the copies it has allocated itself. *)
Theorem grouping_preserves_input h verseLog l :
  is_Some (h !! l) →
  (logGroupedErrors h verseLog).1 !! l = h !! l
  ∧ (logGroupedErrors h verseLog).1 !!! l = h !!! l
  ∧ l ∉ (logGroupedErrors h verseLog).2.
Proof.
  intros Hl. unfold logGroupedErrors.
  destruct (logGroupedErrors_inv h verseLog h [] (groupInv_init h))
    as (Hold & Hnew & _).
  split; [by apply Hold|]. split.
  - by rewrite !lookup_total_alt, Hold.
  - intros Hin. rewrite Forall_forall in Hnew.
    destruct (Hnew _ Hin) as [_ Hnone]. rewrite Hnone in Hl. by destruct Hl.
Qed.

Lemma grouping_preserves_input_witness :
  is_Some (scenarioC.1 !! 1%positive)
  ∧ (logGroupedErrors scenarioC.1 scenarioC.2).1 !!! 1%positive
    = Entry.mk empty 5 5 ctxA.
Proof.
  assert (Hs : is_Some (scenarioC.1 !! 1%positive)) by (by eexists).
  split; [exact Hs|].
  rewrite (proj1 (proj2 (grouping_preserves_input scenarioC.1 scenarioC.2 1%positive Hs))).
  reflexivity.
Defined.

(** Reading [grouped] through the store gives the loop on values. *)
Lemma derefE_insert_notin h l e ls :
  l ∉ ls → derefE (<[l := e]> h) ls = derefE h ls.
Proof.
  intros Hl. unfold derefE. apply list_fmap_ext. intros i x Hx.
  rewrite lookup_total_insert_ne; [done|].
  intros ->. apply Hl. by eapply list_elem_of_lookup_2.
Qed.

Lemma derefE_last h ls : last (derefE h ls) = (λ l, h !!! l) <$> last ls.
Proof. unfold derefE. apply fmap_last. Qed.

Lemma groupStep_view h0 h grouped entry :
  groupInv h0 h grouped →
  is_Some (h0 !! entry) →
  derefE (groupStep (h, grouped) entry).1 (groupStep (h, grouped) entry).2
  = groupValues (derefE h grouped) (h0 !!! entry).
Proof.
  intros (Hold & Hnew & Hnd) Hentry.
  assert (Hread : h !!! entry = h0 !!! entry)
    by (by rewrite !lookup_total_alt, Hold).
  assert (Hpush : derefE (<[fresh (dom h) := h !!! entry]> h) (grouped ++ [fresh (dom h)])
                  = derefE h grouped ++ [h0 !!! entry]).
  { unfold derefE at 1. rewrite fmap_app. simpl.
    rewrite lookup_total_insert_eq, Hread. f_equal.
    apply derefE_insert_notin. intros Hin. rewrite Forall_forall in Hnew.
    destruct (Hnew _ Hin) as [[x Hx] _]. by rewrite fresh_unused in Hx. }
  unfold groupStep, groupValues. simpl. rewrite derefE_last.
  destruct (last grouped) as [lst|] eqn:Hlast; simpl; [|done].
  rewrite Hread in Hpush |- *. destruct (continues _ _); simpl; [|done].
  apply last_Some in Hlast as [init ->].
  apply NoDup_app in Hnd as (_ & Hnotin & _).
  unfold derefE at 1 2. rewrite !fmap_app. simpl.
  rewrite removelast_last, lookup_total_insert_eq. f_equal.
  apply derefE_insert_notin. intros Hin. apply (Hnotin _ Hin). by left.
Qed.

Lemma logGroupedErrors_view h0 verseLog : ∀ h grouped,
  groupInv h0 h grouped →
  Forall (λ l, is_Some (h0 !! l)) verseLog →
  derefE (fold_left groupStep verseLog (h, grouped)).1
         (fold_left groupStep verseLog (h, grouped)).2
  = fold_left groupValues (derefE h0 verseLog) (derefE h grouped).
Proof.
  induction verseLog as [|entry verseLog IH]; intros h grouped Hinv Hwf; [done|].
  apply Forall_cons in Hwf as [Hentry Hwf]. simpl.
  rewrite <- (groupStep_view h0 h grouped entry Hinv Hentry).
  pose proof (groupStep_inv h0 h grouped entry Hinv) as Hstep.
  destruct (groupStep (h, grouped) entry) as [h' grouped']. by apply IH.
Qed.

Lemma settled_nil : settled [].
Proof. intros l1 a b l2 H. by destruct l1. Qed.

Lemma snoc_eq_two {A} (gs : list A) e l1 a b l2 :
  gs ++ [e] = l1 ++ a :: b :: l2 →
  (l2 = [] ∧ gs = l1 ++ [a] ∧ e = b)
  ∨ ∃ l2', l2 = l2' ++ [e] ∧ gs = l1 ++ a :: b :: l2'.
Proof.
  destruct l2 as [|x l2 _] using rev_ind; intros H.
  - left. change (l1 ++ [a; b]) with (l1 ++ [a] ++ [b]) in H.
    rewrite app_assoc in H. apply app_inj_tail in H as [-> ->]. done.
  - right. change (l1 ++ a :: b :: l2 ++ [x]) with (l1 ++ (a :: b :: l2) ++ [x]) in H.
    rewrite app_assoc in H. apply app_inj_tail in H as [-> ->]. by eexists.
Qed.

Lemma settled_snoc gs e :
  settled gs → (∀ g, last gs = Some g → continues g e = false) →
  settled (gs ++ [e]).
Proof.
  intros Hs Hlast l1 a b l2 [(-> & -> & ->) | (l2' & -> & ->)]%snoc_eq_two.
  - apply Hlast, last_snoc.
  - by eapply Hs.
Qed.

Lemma settled_replace_last init g g' :
  settled (init ++ [g]) → (∀ a, continues a g' = continues a g) →
  settled (init ++ [g']).
Proof.
  intros Hs Hsame l1 a b l2 [(-> & -> & ->) | (l2' & -> & ->)]%snoc_eq_two.
  - rewrite Hsame. apply (Hs l1 a g []). by rewrite <- app_assoc.
  - apply (Hs l1 a b (l2' ++ [g])). by rewrite <- app_assoc.
Qed.

Lemma continues_setEnd a x g :
  continues a (Entry.setEnd x g) = continues a g.
Proof. done. Qed.

Lemma groupValues_settled gs e : settled gs → settled (groupValues gs e).
Proof.
  intros Hs. unfold groupValues.
  destruct (last gs) as [g|] eqn:Hlast.
  - destruct (continues g e) eqn:Hc.
    + apply last_Some in Hlast as [init ->]. rewrite removelast_last.
      eapply settled_replace_last; [exact Hs|]. intros a. apply continues_setEnd.
    + apply settled_snoc; [done|]. intros g' Hg'. congruence.
  - apply settled_snoc; [done|]. intros g' Hg'. congruence.
Qed.

Lemma fold_groupValues_settled es : ∀ acc,
  settled acc → settled (fold_left groupValues es acc).
Proof.
  induction es as [|e es IH]; intros acc Hs; [done|].
  simpl. by apply IH, groupValues_settled.
Qed.

(** On a list that is settled the loop only copies. *)
Lemma fold_groupValues_copy gs : ∀ acc,
  settled (acc ++ gs) → fold_left groupValues gs acc = acc ++ gs.
Proof.
  induction gs as [|e gs IH]; intros acc Hs; simpl.
  - by rewrite app_nil_r.
  - assert (Hstep : groupValues acc e = acc ++ [e]).
    { unfold groupValues. destruct (last acc) as [g|] eqn:Hlast; [|done].
      apply last_Some in Hlast as [init ->].
      rewrite (Hs init g e gs); [done|]. by rewrite <- app_assoc. }
    rewrite Hstep, IH; rewrite <- app_assoc; done.
Qed.

Lemma groupAll_idempotent es : groupAll (groupAll es) = groupAll es.
Proof.
  unfold groupAll at 1. apply (fold_groupValues_copy _ []). simpl.
  apply fold_groupValues_settled, settled_nil.
Qed.

(** C6: grouping is idempotent.  Running the grouping loop of
    logGroupedErrors on the array it has produced yields an array of
    entries with the same contents, one for one: nothing more is merged.
    The entries of the input log are objects of the store. *)
Theorem grouping_idempotent h verseLog :
  Forall (λ l, is_Some (h !! l)) verseLog →
  let r1 := logGroupedErrors h verseLog in
  let r2 := logGroupedErrors r1.1 r1.2 in
  derefE r2.1 r2.2 = derefE r1.1 r1.2
  ∧ length r2.2 = length r1.2
  ∧ derefE r1.1 r1.2 = groupAll (derefE h verseLog).
Proof.
  intros Hwf r1 r2.
  assert (H1 : derefE r1.1 r1.2 = groupAll (derefE h verseLog)).
  { apply (logGroupedErrors_view h verseLog h []); [apply groupInv_init | done]. }
  assert (Hwf1 : Forall (λ l, is_Some (r1.1 !! l)) r1.2).
  { destruct (logGroupedErrors_inv h verseLog h [] (groupInv_init h)) as (_ & Hnew & _).
    eapply Forall_impl; [exact Hnew|]. by intros l [? _]. }
  assert (H2 : derefE r2.1 r2.2 = derefE r1.1 r1.2).
  { unfold r2, logGroupedErrors at 1 2.
    rewrite (logGroupedErrors_view r1.1 r1.2 r1.1 []); [|apply groupInv_init | done].
    change (groupAll (derefE r1.1 r1.2) = derefE r1.1 r1.2).
    by rewrite H1, groupAll_idempotent. }
  split; [done|]. split; [|done].
  apply (f_equal length) in H2. unfold derefE in H2. by rewrite !length_fmap in H2.
Qed.

Lemma grouping_idempotent_witness :
  Forall (λ l, is_Some (scenarioC.1 !! l)) scenarioC.2
  ∧ (let r1 := logGroupedErrors scenarioC.1 scenarioC.2 in
     let r2 := logGroupedErrors r1.1 r1.2 in
     derefE r2.1 r2.2 = derefE r1.1 r1.2
     ∧ derefE r1.1 r1.2 = [Entry.mk empty 5 6 ctxA; Entry.mk missing 8 9 ctxA]).
Proof.
  assert (Hwf : Forall (λ l, is_Some (scenarioC.1 !! l)) scenarioC.2).
  { repeat constructor; by eexists. }
  split; [exact Hwf|]. split.
  - exact (proj1 (grouping_idempotent scenarioC.1 scenarioC.2 Hwf)).
  - reflexivity.
Defined.

(** ** The wrapper of a document *)

(** C7: a document of the form [[identifier, inner]], with a string and a
    non-null object, is read as an fsb wrapper around [inner]; the
    processing is applied to [inner] alone, and what is written is the
    serialisation of the two-element array of the same identifier and the
    processed inner object.  A document that is an object is processed
    itself and written without a wrapper. *)
Theorem wrapper_reattached parse stringify fixBible content :
  (∀ ident inner,
     parse content = Some (JArr [JStr ident; inner]) →
     typeofObject inner = true →
     isNull inner = false →
     readBibleFile parse content = inr (Wrapper.mk fsb (JStr ident) inner)
     ∧ ∀ dry, processFile parse stringify fixBible dry content =
         if (fixBible inner).2 then
           if dry then NeedsFixing
           else Written (stringify (JArr [JStr ident; (fixBible inner).1]))
         else Unchanged)
  ∧ (∀ props,
     parse content = Some (JObj props) →
     readBibleFile parse content = inr (Wrapper.mk json JNull (JObj props))
     ∧ ∀ dry, processFile parse stringify fixBible dry content =
         if (fixBible (JObj props)).2 then
           if dry then NeedsFixing
           else Written (stringify (fixBible (JObj props)).1)
         else Unchanged).
Proof.
  split.
  - intros ident inner Hparse Hobj Hnull.
    assert (Hread : readBibleFile parse content
                    = inr (Wrapper.mk fsb (JStr ident) inner)).
    { unfold readBibleFile. rewrite Hparse. simpl. by rewrite Hobj, Hnull. }
    split; [done|]. intros dry. unfold processFile, loopBody. by rewrite Hread.
  - intros props Hparse.
    assert (Hread : readBibleFile parse content
                    = inr (Wrapper.mk json JNull (JObj props))).
    { unfold readBibleFile. by rewrite Hparse. }
    split; [done|]. intros dry. unfold processFile, loopBody. by rewrite Hread.
Qed.

Lemma wrapper_reattached_witness :
  let parse := λ _ : jsstring, Some fsbDocument in
  let stringify := λ _ : value, emptyString in
  let fixBible := λ x : value, (x, true) in
  parse emptyString = Some fsbDocument
  ∧ readBibleFile parse emptyString
    = inr (Wrapper.mk fsb (JStr (js "kjv")) (JObj [(js "books", JArr [])])).
Proof.
  split; [reflexivity|].
  exact (proj1 (proj1 (wrapper_reattached (λ _, Some fsbDocument) (λ _, emptyString)
                         (λ x, (x, true)) emptyString)
                  (js "kjv") (JObj [(js "books", JArr [])]) eq_refl eq_refl eq_refl)).
Defined.

(** ** More about processVerses *)

Lemma body_heap ctx st v :
  heap (body ctx st v) = replay (fst <$> repairs ctx st v) (heap st).
Proof.
  unfold repairs, replay. body_cases st; rewrite ?jsLt_irrefl in *; simpl in *;
    try done; congruence.
Qed.

Lemma body_fixed_eq ctx st v :
  fixed (body ctx st v) = fixed st || negb (bool_decide (repairs ctx st v = [])).
Proof.
  unfold repairs. body_cases st; rewrite ?jsLt_irrefl in *; simpl in *;
    rewrite ?orb_true_r, ?orb_false_r; try done; congruence.
Qed.

Lemma replay_app ws1 ws2 h : replay (ws1 ++ ws2) h = replay ws2 (replay ws1 h).
Proof. apply fold_left_app. Qed.

(** A run in terms of its repairs. *)
Lemma run_verseLog ctx verses : ∀ st,
  verseLog (run ctx st verses) = verseLog st ++ (snd <$> allRepairs ctx st verses).
Proof.
  induction verses as [|v verses IH]; intros st.
  - simpl. by rewrite app_nil_r.
  - rewrite run_cons, IH, body_verseLog. cbn [allRepairs].
    by rewrite fmap_app, <- app_assoc.
Qed.

Lemma run_stores ctx verses : ∀ st,
  stores (run ctx st verses) = stores st ++ (fst <$> allRepairs ctx st verses).
Proof.
  induction verses as [|v verses IH]; intros st.
  - simpl. by rewrite app_nil_r.
  - rewrite run_cons, IH, body_stores. cbn [allRepairs].
    by rewrite fmap_app, <- app_assoc.
Qed.

Lemma run_heap ctx verses : ∀ st,
  heap (run ctx st verses) = replay (fst <$> allRepairs ctx st verses) (heap st).
Proof.
  induction verses as [|v verses IH]; intros st; [done|].
  rewrite run_cons, IH, body_heap. cbn [allRepairs].
  by rewrite fmap_app, replay_app.
Qed.

Lemma run_fixed_eq ctx verses : ∀ st,
  fixed (run ctx st verses)
  = fixed st || negb (bool_decide (allRepairs ctx st verses = [])).
Proof.
  induction verses as [|v verses IH]; intros st.
  - simpl. by rewrite orb_false_r.
  - rewrite run_cons, IH, body_fixed_eq, <- orb_assoc. f_equal. cbn [allRepairs].
    by destruct (repairs ctx st v).
Qed.

(** X1: the sequence returned is exactly the input verses that have
    text, in their original order, whatever their numbers are. *)
Theorem result_is_verses_with_text h verses ctx log :
  let st := processVerses h verses ctx log in
  result st = filter (λ l, Verse.isEmpty (h !!! l) = false) verses
  ∧ result st `sublist_of` verses.
Proof.
  intros st. assert (Hres : result st
    = filter (λ l, Verse.isEmpty (h !!! l) = false) verses).
  { unfold st, processVerses. by rewrite run_result. }
  split; [done|]. rewrite Hres. apply sublist_filter.
Qed.

(** X2: [fixed] is returned true exactly when the call has pushed an
    entry on the log, and every entry pushed goes with one assignment of
    an end number. *)
Theorem fixed_iff_logged h verses ctx log :
  let st := processVerses h verses ctx log in
  (fixed st = true ↔ verseLog st ≠ log)
  ∧ length (verseLog st) = (length log + length (stores st))%nat.
Proof.
  intros st. unfold st, processVerses.
  rewrite run_verseLog, run_stores, run_fixed_eq. simpl.
  rewrite length_app, !length_fmap. split; [|done].
  destruct (allRepairs ctx (init h log) verses) as [|r rs]; simpl.
  - rewrite app_nil_r. split; [done|]. by intros [].
  - split; [|done]. intros _ Heq.
    apply (f_equal length) in Heq. rewrite length_app in Heq. simpl in Heq. lia.
Qed.

(** The entries of one iteration: each carries the context, has a range
    that is not empty, and ends at the end number assigned with it. *)
Lemma repairs_wellformed ctx st v :
  (∀ e, expectedNumber st = Some e → toDouble e = e) →
  Forall (λ r, Entry.context r.2 = ctx
               ∧ Entry.start r.2 ≤ Entry.end_ r.2
               ∧ Entry.end_ r.2 = r.1.2
               ∧ (Entry.type r.2 = empty → Entry.start r.2 = Entry.end_ r.2))
    (repairs ctx st v).
Proof.
  intros Hdouble. unfold repairs. destruct (lastVerse st); [|constructor].
  apply Forall_app. split.
  - destruct (jsLt _ _) eqn:Hlt; repeat constructor; simpl; [|done].
    destruct (expectedNumber st) as [e|]; simpl in *.
    + by apply jsLt_le_jsSub; [apply Hdouble|].
    + by rewrite jsLt_irrefl in Hlt.
  - case_match; repeat constructor; simpl; lia.
Qed.

(** The expected number is a double: so the loop leaves it, and so it
    stays. *)
Lemma allRepairs_wellformed ctx verses : ∀ st,
  (∀ e, expectedNumber st = Some e → toDouble e = e) →
  Forall (λ r, Entry.context r.2 = ctx
               ∧ Entry.start r.2 ≤ Entry.end_ r.2
               ∧ Entry.end_ r.2 = r.1.2
               ∧ (Entry.type r.2 = empty → Entry.start r.2 = Entry.end_ r.2))
    (allRepairs ctx st verses).
Proof.
  induction verses as [|v verses IH]; intros st Hdouble; simpl; [constructor|].
  apply Forall_app. split; [by apply repairs_wellformed|].
  apply IH. rewrite body_expectedNumber. intros e [= <-]. apply jsAdd_double.
Qed.

(** X3: the entries that a call pushes on the log all carry the context
    passed in and a range with start ≤ end (a single verse for an empty
    entry), and the end of each is the end number assigned with it; the
    entries that were on the log before stay in place. *)
Theorem logged_entries_wellformed h verses ctx log :
  let st := processVerses h verses ctx log in
  ∃ new, verseLog st = log ++ new
    ∧ Forall (λ e, Entry.context e = ctx ∧ Entry.start e ≤ Entry.end_ e
                   ∧ (Entry.type e = empty → Entry.start e = Entry.end_ e)) new
    ∧ Entry.end_ <$> new = (stores st).*2.
Proof.
  intros st. exists (snd <$> allRepairs ctx (init h log) verses).
  unfold st, processVerses. rewrite run_verseLog, run_stores. simpl.
  split; [done|].
  assert (Hwf := allRepairs_wellformed ctx verses (init h log) ltac:(by intros e [=])).
  split.
  - apply Forall_fmap. eapply Forall_impl; [exact Hwf|]. by intros r (? & ? & ? & ?).
  - rewrite <- !list_fmap_compose. apply Forall_fmap_ext.
    eapply Forall_impl; [exact Hwf|]. by intros r (? & ? & ? & ?).
Qed.

(** The verse that absorbs the repairs is one of the kept verses. *)
Lemma body_lastVerse_kept ctx st v :
  (∀ l, lastVerse st = Some l → l ∈ result st) →
  ∀ l, lastVerse (body ctx st v) = Some l → l ∈ result (body ctx st v).
Proof.
  intros Hin l. rewrite body_lastVerse, body_result.
  destruct (Verse.isEmpty (heap st !!! v)); [by apply Hin|].
  intros [= <-]. apply elem_of_app. right. by left.
Qed.

Lemma repairs_target ctx st v :
  Forall (λ r, lastVerse st = Some r.1.1) (repairs ctx st v).
Proof.
  unfold repairs. destruct (lastVerse st); [|constructor].
  apply Forall_app. split; case_match; by repeat constructor.
Qed.

Lemma run_result_grows ctx verses st l :
  l ∈ result st → l ∈ result (run ctx st verses).
Proof. intros Hl. rewrite run_result. apply elem_of_app. by left. Qed.

Lemma allRepairs_targets_kept ctx verses : ∀ st,
  (∀ l, lastVerse st = Some l → l ∈ result st) →
  Forall (λ r, r.1.1 ∈ result (run ctx st verses)) (allRepairs ctx st verses).
Proof.
  induction verses as [|v verses IH]; intros st Hin; [constructor|].
  rewrite run_cons. cbn [allRepairs]. apply Forall_app. split.
  - eapply Forall_impl; [apply repairs_target|]. intros r Hr. cbv beta.
    apply run_result_grows. rewrite body_result.
    destruct (Verse.isEmpty (heap st !!! v)); [by apply Hin|].
    apply elem_of_app. left. by apply Hin.
  - apply IH. by apply body_lastVerse_kept.
Qed.

Lemma replay_lookup_other ws : ∀ h l,
  l ∉ ws.*1 → replay ws h !! l = h !! l.
Proof.
  induction ws as [|[l' x] ws IH]; intros h l Hl; [done|].
  rewrite fmap_cons, not_elem_of_cons in Hl. destruct Hl as [Hne Hl].
  unfold replay in *. simpl. rewrite IH by done.
  unfold storeEndNumber. by rewrite lookup_insert_ne.
Qed.

(** X4: a call assigns nothing but the [endNumber] of verses that it
    returns.  The [number] and the [text] of every object are as before,
    and an object that is not in the result (a dropped verse, or any other
    object of the store) is unchanged altogether. *)
Theorem only_kept_verses_assigned h verses ctx log :
  let st := processVerses h verses ctx log in
  (∀ l, Verse.number (heap st !!! l) = Verse.number (h !!! l)
        ∧ Verse.text (heap st !!! l) = Verse.text (h !!! l))
  ∧ (∀ l, l ∉ result st → heap st !! l = h !! l)
  ∧ Forall (λ w, w.1 ∈ result st) (stores st)
  ∧ heap st = replay (stores st) h.
Proof.
  intros st.
  assert (Hkept : Forall (λ w, w.1 ∈ result st) (stores st)).
  { unfold st, processVerses. rewrite run_stores. simpl. apply Forall_fmap.
    apply (allRepairs_targets_kept ctx verses (init h log)). by intros l [=]. }
  assert (Hheap : heap st = replay (stores st) h).
  { unfold st, processVerses. by rewrite run_heap, run_stores. }
  split; [|split; [|done]].
  - intros l. unfold st, processVerses. by rewrite run_number, run_text.
  - intros l Hl. rewrite Hheap. apply replay_lookup_other.
    intros (w & -> & Hw)%list_elem_of_fmap. rewrite Forall_forall in Hkept.
    by apply Hl, Hkept.
Qed.







































(** ** More about the grouping loop *)

Lemma groupStep_length h grouped entry :
  (length grouped ≤ length (groupStep (h, grouped) entry).2
   ≤ S (length grouped))%nat
  ∧ (groupStep (h, grouped) entry).2 ≠ [].
Proof.
  unfold groupStep. simpl.
  destruct (last grouped) as [lst|] eqn:Hlast.
  - assert (grouped ≠ []) by (by intros ->).
    destruct (continues _ _); simpl; rewrite ?length_app; simpl.
    + split; [lia|done].
    + split; [lia|]. by intros [? _]%app_eq_nil.
  - simpl. rewrite length_app. simpl. split; [lia|]. by intros [_ ?]%app_eq_nil.
Qed.

Lemma fold_groupStep_length verseLog : ∀ h grouped,
  (length grouped ≤ length (fold_left groupStep verseLog (h, grouped)).2
   ≤ length grouped + length verseLog)%nat
  ∧ (grouped ≠ [] ∨ verseLog ≠ [] →
     (fold_left groupStep verseLog (h, grouped)).2 ≠ []).
Proof.
  induction verseLog as [|entry verseLog IH]; intros h grouped.
  - simpl. split; [lia|]. by intros [?|?].
  - simpl. destruct (groupStep_length h grouped entry) as [Hlen Hne].
    destruct (groupStep (h, grouped) entry) as [h' grouped']. simpl in *.
    destruct (IH h' grouped') as [Hlen' Hne']. split; [lia|].
    intros _. apply Hne'. by left.
Qed.

(** X8: grouping never makes the report longer: [grouped] has at most as
    many elements as the log, and at least one when the log has any. *)
Theorem grouped_no_longer h verseLog :
  (length (logGroupedErrors h verseLog).2 ≤ length verseLog)%nat
  ∧ (verseLog ≠ [] → (logGroupedErrors h verseLog).2 ≠ []).
Proof.
  unfold logGroupedErrors.
  destruct (fold_groupStep_length verseLog h []) as [Hlen Hne]. simpl in *.
  split; [lia|]. intros H. apply Hne. by right.
Qed.

Lemma grouped_no_longer_witness :
  scenarioC.2 ≠ [] ∧ (logGroupedErrors scenarioC.1 scenarioC.2).2 ≠ [].
Proof.
  assert (H : scenarioC.2 ≠ []) by done.
  split; [exact H|]. exact (proj2 (grouped_no_longer scenarioC.1 scenarioC.2) H).
Defined.

Lemma kind_eqb_eq a b : kind_eqb a b = true ↔ a = b.
Proof. destruct a, b; simpl; split; done. Qed.

Lemma continues_spec g e :
  continues g e = true ↔
  Entry.type g = Entry.type e ∧ Entry.context g = Entry.context e
  ∧ toDouble (jsAdd (Entry.end_ g) 1) = toDouble (Entry.start e).
Proof.
  unfold continues, jsEq.
  rewrite !andb_true_iff, kind_eqb_eq, bool_decide_eq_true, Z.eqb_eq.
  tauto.
Qed.








(** Without safe integers X9 fails: two equal entries for the verse 2^53
    are grouped into one, since [2^53 + 1] is the double 2^53. *)
Lemma grouping_beyond_safe_integers :
  let r := logGroupedErrors largeEntries.1 largeEntries.2 in
  derefE r.1 r.2 = [Entry.mk empty (2 ^ 53) (2 ^ 53) ctxA].
Proof. by vm_compute. Qed.

Lemma groupAll_consecutive t ctx n k :
  groupAll ((λ i, Entry.mk t i i ctx) <$> seqZ n (Z.of_nat (S k)))
  = [Entry.mk t n (n + Z.of_nat k) ctx].
Proof.
  unfold groupAll. induction k as [|k IH].
  - rewrite seqZ_S. simpl. by rewrite Z.add_0_r.
  - rewrite seqZ_S, fmap_app, fold_left_app, IH. simpl.
    unfold groupValues. simpl.
    assert (Hc : continues (Entry.mk t n (n + Z.of_nat k) ctx)
                   (Entry.mk t (n + Z.of_nat (S k)) (n + Z.of_nat (S k)) ctx) = true).
    { apply continues_spec. simpl. repeat split. unfold jsAdd.
      rewrite toDouble_idemp. f_equal. lia. }
    by rewrite Hc.
Qed.

(** X10: a run of entries for single consecutive verses, of one type and
    one context, is grouped into one entry from the first verse to the
    last; so consecutive empty verses are printed as one range. *)
Theorem consecutive_entries_collapse h verseLog t ctx n k :
  Forall (λ l, is_Some (h !! l)) verseLog →
  derefE h verseLog = (λ i, Entry.mk t i i ctx) <$> seqZ n (Z.of_nat (S k)) →
  let r := logGroupedErrors h verseLog in
  derefE r.1 r.2 = [Entry.mk t n (n + Z.of_nat k) ctx].
Proof.
  intros Hwf Hlog r. unfold r, logGroupedErrors.
  rewrite (logGroupedErrors_view h verseLog h []); [|apply groupInv_init | done].
  rewrite Hlog. apply groupAll_consecutive.
Qed.

Lemma consecutive_entries_collapse_witness :
  Forall (λ l, is_Some (threeEmpties.1 !! l)) threeEmpties.2
  ∧ derefE threeEmpties.1 threeEmpties.2
    = (λ i, Entry.mk empty i i ctxA) <$> seqZ 5 (Z.of_nat 3)
  ∧ (let r := logGroupedErrors threeEmpties.1 threeEmpties.2 in
     derefE r.1 r.2 = [Entry.mk empty 5 (5 + Z.of_nat 2) ctxA]).
Proof.
  assert (Hwf : Forall (λ l, is_Some (threeEmpties.1 !! l)) threeEmpties.2).
  { repeat constructor; by eexists. }
  split; [exact Hwf|]. split; [reflexivity|].
  exact (consecutive_entries_collapse threeEmpties.1 threeEmpties.2
           empty ctxA 5 2 Hwf eq_refl).
Defined.

(** ** More about reading and writing a document *)

(** X11: reading and writing are inverse on every document that is
    accepted: the value that [writeBibleFile] would serialise for the
    wrapper just read is the parsed input itself, and a file whose
    processing reports a change without changing the data is written as
    the serialisation of the parsed input. *)
Theorem read_write_roundtrip parse stringify fixBible content w :
  readBibleFile parse content = inr w →
  parse content = Some (outputData w)
  ∧ (fixBible (Wrapper.data w) = (Wrapper.data w, true) →
     processFile parse stringify fixBible false content
     = Written (stringify (outputData w))).
Proof.
  intros Hread.
  assert (Hparse : parse content = Some (outputData w)).
  { unfold readBibleFile in Hread. destruct (parse content) as [raw|]; [|done].
    destruct (isFsbStructure raw) eqn:Hfsb.
    - destruct raw as [| | | |[|x0 [|x1 [|]]]|]; try done. by injection Hread as <-.
    - destruct raw; try done. by injection Hread as <-. }
  split; [done|]. intros Hfix. unfold processFile, loopBody. rewrite Hread, Hfix. simpl.
  by destruct w.
Qed.

Lemma read_write_roundtrip_witness :
  let parse := λ _ : jsstring, Some fsbDocument in
  let w := Wrapper.mk fsb (JStr (js "kjv")) (JObj [(js "books", JArr [])]) in
  readBibleFile parse emptyString = inr w
  ∧ parse emptyString = Some (outputData w).
Proof.
  split; [reflexivity|].
  exact (proj1 (read_write_roundtrip (λ _, Some fsbDocument) (λ _, emptyString)
                  (λ x, (x, true)) emptyString
                  (Wrapper.mk fsb (JStr (js "kjv")) (JObj [(js "books", JArr [])]))
                  eq_refl)).
Defined.

(** X12: which documents are accepted.  [readBibleFile] returns a wrapper
    exactly for a JSON object and for a two-element array of a string and
    an object or array; it throws the syntax error exactly when parsing
    fails, and the structure error for everything else: null, a
    primitive, or an array of any other shape. *)
Theorem accepted_documents parse content :
  ((∃ w, readBibleFile parse content = inr w) ↔
     ∃ raw, parse content = Some raw
       ∧ ((∃ props, raw = JObj props)
          ∨ ∃ ident x, raw = JArr [JStr ident; x]
              ∧ ((∃ props, x = JObj props) ∨ ∃ xs, x = JArr xs)))
  ∧ (readBibleFile parse content = inl InvalidJSONSyntax ↔ parse content = None).
Proof.
  unfold readBibleFile. destruct (parse content) as [raw|]; [|split].
  - split; [split|split; [|done]].
    + intros [w Hw]. exists raw. split; [done|].
      destruct raw as [| | | |xs|props]; try done; [|left; by eexists].
      right. destruct xs as [|x0 [|x1 [|]]]; try done.
      destruct x0; try done. destruct x1; try done; do 2 eexists; eauto.
    + intros (raw' & [= <-] & [[props ->] | (ident & x & -> & [[props ->] | [xs ->]])]);
        by eexists.
    + destruct raw as [| | | |xs|props]; try done.
      destruct xs as [|x0 [|x1 [|]]]; try done.
      destruct x0; try done. by destruct x1.
  - split; [by intros [w ?] | by intros (raw & ? & _)].
  - done.
Qed.

(** ** The main loop *)






(** The batch of one accepted file on which step 2 throws, followed by
    any other files: the loop is left by the exception, and nothing is
    counted or written. *)
Lemma batch_aborted parse stringify dry name content others w :
  isInputFile name = true →
  readBibleFile parse content = inr w →
  mainLoop parse stringify (λ _, None) dry ((name, content) :: others)
  = ({| fixedCount := 0; invalidCount := 0; written := [] |}, false).
Proof.
  intros Hname Hread. unfold mainLoop. rewrite filter_cons_True by done.
  cbn [forFiles]. unfold fileStep, loopBody. simpl. by rewrite Hread.
Qed.

(** ** Step 2 on a typed document *)


Lemma forEach_Forall2 {A S} (P : S → Prop) (R : A → A → Prop)
    (f : S → A → A * S) xs : ∀ s,
  (∀ s x, P s → R x (f s x).1 ∧ P (f s x).2) → P s →
  Forall2 R xs (forEach f xs s).1 ∧ P (forEach f xs s).2.
Proof.
  induction xs as [|x xs IH]; intros s Hstep Hs; [by split; [constructor|]|].
  simpl. destruct (Hstep s x Hs) as [Hx Hs']. destruct (IH _ Hstep Hs') as [Hxs Hfin].
  split; [by constructor | done].
Qed.

Lemma forEach_unchanged {A S} (Q : S → Prop) (R : S → S → Prop)
    (f : S → A → A * S) xs : ∀ s,
  (∀ s, R s s) → (∀ s1 s2 s3, R s1 s2 → R s2 s3 → R s1 s3) →
  (∀ s x, Q (f s x).2 → (f s x).1 = x ∧ Q s ∧ R s (f s x).2) →
  Q (forEach f xs s).2 →
  (forEach f xs s).1 = xs ∧ Q s ∧ R s (forEach f xs s).2.
Proof.
  induction xs as [|x xs IH]; intros s Hrefl Htrans Hstep Hfin; [by simpl|].
  simpl in *. destruct (IH _ Hrefl Htrans Hstep Hfin) as (Hxs & Hq & Hr).
  destruct (Hstep s x Hq) as (Hx & Hs & Hr').
  split; [by rewrite Hx, Hxs|]. split; [done|]. by eapply Htrans.
Qed.

(** A call of processVerses in terms of its repairs. *)
Lemma processVerses_summary h verses ctx log :
  let st := processVerses h verses ctx log in
  let rs := allRepairs ctx (init h log) verses in
  verseLog st = log ++ rs.*2
  ∧ fixed st = negb (bool_decide (rs = []))
  ∧ heap st = replay rs.*1 h.
Proof.
  intros st rs. unfold st, processVerses.
  by rewrite run_verseLog, run_fixed_eq, run_heap.
Qed.

Section ProcessFacts.

Variable numberToString : Z → jsstring.




Lemma sameStoreAndLog_refl s : sameStoreAndLog s s.
Proof. done. Qed.

Lemma sameStoreAndLog_trans s1 s2 s3 :
  sameStoreAndLog s1 s2 → sameStoreAndLog s2 s3 → sameStoreAndLog s1 s3.
Proof. intros [? ?] [? ?]. split; congruence. Qed.

Lemma processChapter_unchanged b acc c :
  bibleWasModified (processChapter numberToString b acc c).2 = false →
  (processChapter numberToString b acc c).1 = c
  ∧ bibleWasModified acc = false
  ∧ sameStoreAndLog acc (processChapter numberToString b acc c).2.
Proof.
  unfold processChapter, sameStoreAndLog.
  destruct (processVerses_summary (store acc) (default [] (Doc.verses c))
              (chapterContext numberToString b c) (fileLog acc)) as (Hlog & Hfix & Hheap).
  rewrite Hfix.
  destruct (allRepairs _ _ _) as [|r rs]; simpl in *; [|done].
  intros Hacc. by rewrite Hlog, Hheap, app_nil_r.
Qed.

Lemma processBook_unchanged acc b :
  bibleWasModified (processBook numberToString acc b).2 = false →
  (processBook numberToString acc b).1 = b
  ∧ bibleWasModified acc = false
  ∧ sameStoreAndLog acc (processBook numberToString acc b).2.
Proof.
  unfold processBook. destruct b as [name [cs|]]; simpl; [|done].
  intros Hfin.
  destruct (forEach_unchanged (λ s, bibleWasModified s = false) sameStoreAndLog
              (processChapter numberToString (Doc.mkBook name (Some cs))) cs acc
              sameStoreAndLog_refl sameStoreAndLog_trans) as (Hcs & Hacc & Hsame).
  - intros s x. apply processChapter_unchanged.
  - done.
  - by rewrite Hcs.
Qed.

(** X15: a document on which step 2 does not set [bibleWasModified] is
    left exactly as it was: the same books and chapters with the same
    arrays of verses, the same store, an empty log.  A chapter that only
    has empty verses at its head is such a chapter: these stay in the
    document. *)
Theorem unmodified_document_unchanged h bible :
  let r := processBible numberToString h bible in
  bibleWasModified r.2 = false →
  r.1 = bible ∧ store r.2 = h ∧ fileLog r.2 = [].
Proof.
  intros r. unfold r, processBible. destruct bible as [[bs|]]; simpl; [|done].
  intros Hfin.
  destruct (forEach_unchanged (λ s, bibleWasModified s = false) sameStoreAndLog
              (processBook numberToString) bs
              {| store := h; fileLog := []; bibleWasModified := false |}
              sameStoreAndLog_refl sameStoreAndLog_trans) as (Hbs & _ & Hs & Hl).
  - intros s x. apply processBook_unchanged.
  - done.
  - by rewrite Hbs.
Qed.

Lemma processChapter_repaired h b acc c :
  sameTexts h acc →
  chapterRepaired h c (processChapter numberToString b acc c).1
  ∧ sameTexts h (processChapter numberToString b acc c).2.
Proof.
  intros Htexts. unfold processChapter.
  set (st := processVerses _ _ _ _).
  assert (Hafter : ∀ l, Verse.text (heap st !!! l) = Verse.text (h !!! l)).
  { intros l. unfold st, processVerses. by rewrite run_text. }
  destruct (fixed st); simpl; (split; [|done]).
  - split; [done|]. right. unfold st, processVerses.
    rewrite run_result. simpl. f_equal. apply list_filter_iff. intros l.
    unfold Verse.isEmpty. by rewrite Htexts.
  - split; [done|]. by left.
Qed.

Lemma processBook_repaired h acc b :
  sameTexts h acc →
  bookRepaired h b (processBook numberToString acc b).1
  ∧ sameTexts h (processBook numberToString acc b).2.
Proof.
  intros Htexts. unfold processBook, bookRepaired.
  destruct (Doc.chapters b) as [cs|] eqn:Hcs; simpl.
  - destruct (forEach_Forall2 (sameTexts h) (chapterRepaired h)
                (processChapter numberToString b) cs acc) as [Hall Hfin]; [|done|].
    + intros s x. apply processChapter_repaired.
    + split; [|done]. split; [done|]. by constructor.
  - rewrite Hcs. split; [|done]. split; [done|]. constructor.
Qed.

(** X16: step 2 keeps the shape of the document.  Every book keeps its
    name and its chapters, every chapter its number, and the verses of a
    chapter afterwards are either the same array as before or, of the
    verses before, exactly those that have text; a chapter never gains a
    verse and never loses one that has text. *)
Theorem document_shape_kept h bible :
  option_Forall2 (Forall2 (bookRepaired h))
    (Doc.books bible) (Doc.books (processBible numberToString h bible).1).
Proof.
  unfold processBible. destruct (Doc.books bible) as [bs|] eqn:Hbs; simpl.
  - constructor.
    apply (forEach_Forall2 (sameTexts h) (bookRepaired h) (processBook numberToString)).
    + intros s x. apply processBook_repaired.
    + done.
  - rewrite Hbs. constructor.
Qed.

End ProcessFacts.

Lemma unmodified_document_unchanged_witness :
  let r := processBible (λ _, emptyString) leadingEmpty.1 docLeadingEmpty in
  bibleWasModified r.2 = false ∧ r.1 = docLeadingEmpty.
Proof.
  split; [reflexivity|].
  exact (proj1 (unmodified_document_unchanged (λ _, emptyString) leadingEmpty.1
                  docLeadingEmpty eq_refl)).
Defined.

(** ** The log buffer and the arguments *)

Lemma join_terminated sep lines :
  lines ≠ [] → join sep lines ++ sep = concat ((λ l, l ++ sep) <$> lines).
Proof.
  induction lines as [|l [|l' lines] IH]; intros Hne; [done| |].
  - simpl. by rewrite app_nil_r.
  - change (join sep (l :: l' :: lines)) with (l ++ sep ++ join sep (l' :: lines)).
    rewrite fmap_cons. cbn [concat]. rewrite <- IH by done.
    by rewrite <- !app_assoc.
Qed.

Lemma logAll_snoc w msgs msg :
  logAll w (msgs ++ [msg]) = logMessage w msg (logAll w msgs).
Proof. unfold logAll. by rewrite fold_left_app. Qed.

Lemma logAll_state w msgs :
  console (logAll w msgs) = msgs
  ∧ logLines (logAll w msgs) = if w then msgs else [].
Proof.
  induction msgs as [|msg msgs IH] using rev_ind; [by destruct w|].
  rewrite logAll_snoc. destruct IH as [Hc Hl].
  unfold logMessage, writeLog. destruct w; simpl; by rewrite Hc, ?Hl.
Qed.

(** X17: the log file mirrors the console.  After any number of
    [logMessage] calls the console holds the messages in order; with
    [--log] and at least one message, [flushLogs] writes every one of
    them followed by a line feed, and without [--log], or without any
    message, it writes no file. *)
Theorem log_file_mirrors_console w msgs :
  console (logAll w msgs) = msgs
  ∧ flushLogs w (logAll w msgs)
    = if w && negb (bool_decide (msgs = []))
      then Some (concat ((λ m, m ++ newline) <$> msgs))
      else None.
Proof.
  destruct (logAll_state w msgs) as [Hc Hl]. split; [done|].
  unfold flushLogs. rewrite Hl. destruct w; [|done]. simpl.
  case_bool_decide as Hm; simpl; [done|]. by rewrite join_terminated.
Qed.

Lemma includes_skip args1 x args2 f :
  x ≠ f → includes (args1 ++ x :: args2) f = includes (args1 ++ args2) f.
Proof.
  intros Hne. unfold includes. apply bool_decide_ext.
  rewrite !elem_of_app, elem_of_cons.
  split; [intros [?|[->|?]]; [by left|done|by right]
         | intros [?|?]; [by left | right; by right]].
Qed.

Lemma allowed_start_with_dash f : f ∈ ALLOWED_FLAGS → startsWithDash f = true.
Proof.
  unfold ALLOWED_FLAGS. rewrite !elem_of_cons, elem_of_nil.
  intros [->|[->|[->|[->|[]]]]]; reflexivity.
Qed.

(** X18: an argument that does not start with a dash is ignored: with or
    without it the script starts in the same way, with the same flags. *)
Theorem positional_argument_ignored args1 x args2 :
  startsWithDash x = false →
  start (args1 ++ x :: args2) = start (args1 ++ args2).
Proof.
  intros Hx.
  assert (Hne : ∀ f, f ∈ ALLOWED_FLAGS → x ≠ f).
  { intros f Hf ->. apply allowed_start_with_dash in Hf. congruence. }
  assert (Hflags : FLAGS (args1 ++ x :: args2) = FLAGS (args1 ++ args2)).
  { unfold FLAGS. rewrite !includes_skip; [done|..]; apply Hne;
      unfold ALLOWED_FLAGS; rewrite !elem_of_cons; auto. }
  unfold start, firstUnknown. rewrite Hflags, !filter_app, filter_cons_False; [done|].
  by rewrite Hx.
Qed.

Lemma positional_argument_ignored_witness :
  startsWithDash (js "notes.txt") = false
  ∧ start ([js "--log"] ++ js "notes.txt" :: [js "--dry-run"])
    = start ([js "--log"] ++ [js "--dry-run"]).
Proof.
  split; [reflexivity|].
  exact (positional_argument_ignored [js "--log"] (js "notes.txt") [js "--dry-run"]
           eq_refl).
Defined.

Lemma head_filter_Some {A} (P : A → Prop) `{!∀ x, Decision (P x)} (l : list A) a :
  head (filter P l) = Some a ↔
  ∃ pre post, l = pre ++ a :: post ∧ P a ∧ Forall (λ b, ¬ P b) pre.
Proof.
  induction l as [|x l IH].
  - split; [done|]. intros (pre & post & Hl & _). by destruct pre.
  - rewrite filter_cons. destruct (decide (P x)) as [Hx|Hx].
    + simpl. split.
      * intros [= ->]. exists [], l. by repeat split.
      * intros ([|y pre] & post & Hl & Ha & Hpre); simplify_eq/=; [done|].
        by apply Forall_cons in Hpre as [? _].
    + rewrite IH. split.
      * intros (pre & post & -> & Ha & Hpre). exists (x :: pre), post.
        split; [done|]. split; [done|]. by constructor.
      * intros ([|y pre] & post & Hl & Ha & Hpre); simplify_eq/=; [done|].
        apply Forall_cons in Hpre as [_ Hpre]. by exists pre, post.
Qed.

Lemma head_filter_None {A} (P : A → Prop) `{!∀ x, Decision (P x)} (l : list A) :
  head (filter P l) = None ↔ Forall (λ b, ¬ P b) l.
Proof.
  induction l as [|x l IH]; [by split|].
  rewrite filter_cons, Forall_cons. destruct (decide (P x)) as [Hx|Hx]; simpl.
  - split; [done|]. by intros [? _].
  - rewrite IH. tauto.
Qed.

(** The test of the validation loop, spelled out. *)
Lemma unknown_spec arg :
  startsWithDash arg && negb (includes ALLOWED_FLAGS arg) = true ↔
  startsWithDash arg = true
  ∧ arg ≠ js "--dry-run" ∧ arg ≠ js "--log" ∧ arg ≠ js "--help" ∧ arg ≠ js "-h".
Proof.
  unfold includes, ALLOWED_FLAGS.
  rewrite andb_true_iff, negb_true_iff, bool_decide_eq_false.
  rewrite !not_elem_of_cons. split.
  - intros (? & ? & ? & ? & ? & _). done.
  - intros (? & ? & ? & ? & ?). repeat split; try done. apply not_elem_of_nil.
Qed.

Lemma help_spec args :
  FLAG_HELP (FLAGS args) = true ↔ js "--help" ∈ args ∨ js "-h" ∈ args.
Proof.
  unfold FLAGS, includes. simpl. by rewrite orb_true_iff, !bool_decide_eq_true.
Qed.

(** X19: how the script starts.  It exits with status 1, naming the
    argument, exactly on the first argument that starts with a dash and
    is none of the four flags, whether or not help is asked for as well.
    It prints the help and exits with status 0 exactly when there is no
    such argument and [--help] or [-h] is given.  It goes on to process
    files exactly when every argument that starts with a dash is
    [--dry-run] or [--log]; the flags are then those two memberships, and
    help is off. *)
Theorem proceeds_iff_known_flags args :
  let unknown := λ a,
    startsWithDash a = true
    ∧ a ≠ js "--dry-run" ∧ a ≠ js "--log" ∧ a ≠ js "--help" ∧ a ≠ js "-h" in
  let help := js "--help" ∈ args ∨ js "-h" ∈ args in
  (∀ a, start args = ExitUnknown a ↔
        ∃ pre post, args = pre ++ a :: post ∧ unknown a
                    ∧ Forall (λ b, ¬ unknown b) pre)
  ∧ (start args = ExitHelp ↔ Forall (λ b, ¬ unknown b) args ∧ help)
  ∧ (∀ f, start args = Proceed f ↔
        Forall (λ a, startsWithDash a = true → a = js "--dry-run" ∨ a = js "--log") args
        ∧ f = {| FLAG_DRY_RUN := includes args (js "--dry-run");
                 FLAG_WRITE_LOG := includes args (js "--log");
                 FLAG_HELP := false |})
  ∧ (exitStatus (start args) = Some 1 ↔ Exists unknown args)
  ∧ (exitStatus (start args) = Some 0 ↔ Forall (λ b, ¬ unknown b) args ∧ help)
  ∧ (exitStatus (start args) = None ↔ Forall (λ b, ¬ unknown b) args ∧ ¬ help).
Proof.
  intros unknown help.
  set (bad := λ arg, startsWithDash arg && negb (includes ALLOWED_FLAGS arg) = true).
  assert (Hbad : ∀ a, bad a ↔ unknown a) by (intros a; apply unknown_spec).
  assert (Hall : ∀ l, Forall (λ b, ¬ bad b) l ↔ Forall (λ b, ¬ unknown b) l).
  { intros l. apply Forall_proper; [|done]. intros b. by rewrite Hbad. }
  assert (Hsome : ∀ a, firstUnknown args = Some a ↔
            ∃ pre post, args = pre ++ a :: post ∧ unknown a
                        ∧ Forall (λ b, ¬ unknown b) pre).
  { intros a. unfold firstUnknown. fold bad. rewrite (head_filter_Some bad).
    split; intros (pre & post & ? & ? & ?); exists pre, post;
      (split; [done|]); (split; [by apply Hbad | by apply Hall]). }
  assert (Hnone : firstUnknown args = None ↔ Forall (λ b, ¬ unknown b) args).
  { unfold firstUnknown. fold bad. by rewrite (head_filter_None bad), Hall. }
  assert (Hhelp : FLAG_HELP (FLAGS args) = true ↔ help) by apply help_spec.
  assert (Hnohelp : FLAG_HELP (FLAGS args) = false ↔ ¬ help).
  { rewrite <- Hhelp. by destruct (FLAG_HELP (FLAGS args)). }
  assert (Hexists : Exists unknown args ↔ ¬ Forall (λ b, ¬ unknown b) args).
  { split.
    - intros (a & Ha & Hu)%Exists_exists Hn. rewrite Forall_forall in Hn.
      by apply (Hn a Ha).
    - intros Hn. destruct (firstUnknown args) as [a|] eqn:Hhead.
      + destruct (proj1 (Hsome a) eq_refl) as (pre & post & -> & Ha & _).
        apply Exists_exists. exists a. split; [|done].
        apply elem_of_app. right. by left.
      + destruct Hn. by apply Hnone. }
  assert (Hknown : Forall (λ b, ¬ unknown b) args ∧ ¬ help ↔
            Forall (λ a, startsWithDash a = true
                         → a = js "--dry-run" ∨ a = js "--log") args).
  { rewrite !Forall_forall. split.
    - intros [Hno Hh] a Ha Hdash.
      destruct (decide (a = js "--dry-run")) as [|H1]; [by left|].
      destruct (decide (a = js "--log")) as [|H2]; [by right|].
      destruct (decide (a = js "--help")) as [->|H3]; [destruct Hh; by left|].
      destruct (decide (a = js "-h")) as [->|H4]; [destruct Hh; by right|].
      by destruct (Hno a Ha).
    - intros Hok. split.
      + intros a Ha (Hdash & H1 & H2 & _). by destruct (Hok a Ha Hdash).
      + intros [Hin|Hin]; by destruct (Hok _ Hin eq_refl). }
  unfold start.
  destruct (firstUnknown args) as [a0|] eqn:Hfirst.
  - assert (Hnot : ¬ Forall (λ b, ¬ unknown b) args).
    { intros H%Hnone. done. }
    split; [|split; [|split; [|split; [|split]]]]; simpl.
    + intros a. rewrite <- Hsome. split; [by intros [= ->] | by intros [= ->]].
    + split; [done | by intros [? _]].
    + intros f. split; [done|]. intros [H%Hknown _]. by destruct H.
    + split; [intros _; by apply Hexists | done].
    + split; [done | by intros [? _]].
    + split; [done | by intros [? _]].
  - assert (Hno : Forall (λ b, ¬ unknown b) args) by (by apply Hnone).
    destruct (FLAG_HELP (FLAGS args)) eqn:Hh.
    + assert (Hhelp' : help) by (by apply Hhelp).
      split; [|split; [|split; [|split; [|split]]]]; simpl.
      * intros a. split; [done|]. intros H%Hsome. done.
      * done.
      * intros f. split; [done|]. intros [H%Hknown _]. by destruct H.
      * split; [done|]. by intros H%Hexists.
      * done.
      * split; [done | by intros [_ ?]].
    + assert (Hhelp' : ¬ help) by (by apply Hnohelp).
      split; [|split; [|split; [|split; [|split]]]]; simpl.
      * intros a. split; [done|]. intros H%Hsome. done.
      * split; [done | by intros [_ ?]].
      * intros f. rewrite <- Hknown. split.
        -- intros [= <-]. split; [done|]. unfold FLAGS. f_equal. exact Hh.
        -- intros [_ ->]. unfold FLAGS in *. simpl in Hh. by rewrite Hh.
      * split; [done|]. by intros H%Hexists.
      * split; [done | by intros [_ ?]].
      * done.
Qed.

(** ** Chapters in which every verse has text *)





(** Without safe integers X20 fails: after the verse 2^53 + 2 the
    expected number is the double 2^53 + 4, so the verse 2^53 + 4 is no
    gap. *)
Lemma with_text_beyond_safe_integers :
  fixed (processVerses largeWithText.1 largeWithText.2 ctxA []) = false.
Proof. by vm_compute. Qed.

(** ** The log and the context are only written *)

Lemma repairs_core ctx ctx' st st' v :
  core st = core st' →
  repairs ctx' st' v = (λ r, (r.1, withContext ctx' r.2)) <$> repairs ctx st v.
Proof.
  unfold core. intros [= Hr Hl He Hf Hh Hs]. unfold repairs.
  rewrite <- Hl, <- He, <- Hh. destruct (lastVerse st); [|done].
  rewrite fmap_app. f_equal; by case_match.
Qed.

Lemma body_core ctx ctx' st st' v :
  core st = core st' → core (body ctx st v) = core (body ctx' st' v).
Proof.
  intros Hcore. pose proof (repairs_core ctx ctx' st st' v Hcore) as Hrep.
  unfold core in *. injection Hcore as Hr Hl He Hf Hh Hs.
  rewrite !body_result, !body_lastVerse, !body_expectedNumber, !body_fixed_eq,
    !body_heap, !body_stores, Hrep, <- Hr, <- Hl, <- Hf, <- Hh, <- Hs.
  rewrite <- list_fmap_compose.
  assert (Hnil : bool_decide ((λ r : loc * Z * Entry.t, (r.1, withContext ctx' r.2))
                    <$> repairs ctx st v = [])
                 = bool_decide (repairs ctx st v = [])).
  { apply bool_decide_ext. split; [apply fmap_nil_inv | by intros ->]. }
  by rewrite Hnil.
Qed.

Lemma allRepairs_core ctx ctx' verses : ∀ st st',
  core st = core st' →
  allRepairs ctx' st' verses
  = (λ r, (r.1, withContext ctx' r.2)) <$> allRepairs ctx st verses.
Proof.
  induction verses as [|v verses IH]; intros st st' Hcore; [done|].
  cbn [allRepairs]. rewrite fmap_app.
  rewrite <- (repairs_core ctx ctx' st st' v Hcore).
  by rewrite <- (IH (body ctx st v) (body ctx' st' v) (body_core ctx ctx' st st' v Hcore)).
Qed.

Lemma run_core ctx ctx' verses : ∀ st st',
  core st = core st' → core (run ctx st verses) = core (run ctx' st' verses).
Proof.
  induction verses as [|v verses IH]; intros st st' Hcore; [done|].
  rewrite !run_cons. by apply IH, body_core.
Qed.

(** X21: the log and the context that are passed in are only written.
    Whatever they are, a call returns the same sequence and the same
    [fixed], and assigns the same end numbers; it pushes the same entries
    after the log it is given, with the context it is given. *)
Theorem log_and_context_only_written h verses ctx log ctx' log' :
  let st := processVerses h verses ctx log in
  let st' := processVerses h verses ctx' log' in
  result st' = result st ∧ fixed st' = fixed st
  ∧ heap st' = heap st ∧ stores st' = stores st
  ∧ ∃ new, verseLog st = log ++ new
      ∧ verseLog st' = log' ++ (withContext ctx' <$> new).
Proof.
  intros st st'.
  assert (Hcore : core st = core st').
  { unfold st, st', processVerses. by apply run_core. }
  unfold core in Hcore. injection Hcore as Hr Hl He Hf Hh Hs.
  repeat (split; [done|]).
  exists (snd <$> allRepairs ctx (init h log) verses).
  unfold st, st', processVerses. rewrite !run_verseLog. simpl. split; [done|].
  rewrite (allRepairs_core ctx ctx' verses (init h log) (init h log')) by done.
  by rewrite <- !list_fmap_compose.
Qed.

(** ** The log of a chapter is exact *)



















